(** * thermocouples_reference: piecewise reference functions, unit
      conversion and the thermocouple helper object

    A shallow embedding of [thermocouples_reference/units.py] and
    [thermocouples_reference/function_types.py].

    Numbers.  Python floats are modelled as real numbers ([R]); the only
    non-finite value the code itself manufactures is the NaN it writes with
    [T*np.nan] under the ["nan"] policy, so the values of an evaluation are
    [npfloat]: a real or [NaN].  Comparisons with [NaN] are false, as in
    IEEE arithmetic.

    Arrays.  A numpy array is modelled by the list of its elements (a scalar
    is the array with one element); arithmetic on arrays is elementwise.

    Exceptions.  A Python call that may raise returns a [result]: [Ok v] or
    [Raise e], where [e] keeps the exception class and its [args]. *)

From Stdlib Require Import Reals List String ZArith Bool Lra Lia.
Import ListNotations.

Open Scope string_scope.
Open Scope list_scope.
Open Scope Z_scope.
Open Scope R_scope.

(* ------------------------------------------------------------------ *)
(** ** Python values *)

(** A float as the evaluation returns it. *)
Inductive npfloat : Type :=
| Fin (r : R)
| NaN.

Definition fsub (a b : npfloat) : npfloat :=
  match a, b with
  | Fin x, Fin y => Fin (x - y)
  | _, _ => NaN
  end.

Definition fmul (a b : npfloat) : npfloat :=
  match a, b with
  | Fin x, Fin y => Fin (x * y)
  | _, _ => NaN
  end.

Definition fabs (a : npfloat) : npfloat :=
  match a with
  | Fin x => Fin (Rabs x)
  | NaN => NaN
  end.

Definition Rleb (x y : R) : bool := if Rle_dec x y then true else false.
Definition Rltb (x y : R) : bool := if Rlt_dec x y then true else false.
Definition Rgeb (x y : R) : bool := Rleb y x.
Definition Rgtb (x y : R) : bool := Rltb y x.
Definition Reqb (x y : R) : bool := if Req_dec_T x y then true else false.

(** [a <= b] and [a > b] on floats: false as soon as a NaN is involved. *)
Definition fle (a b : npfloat) : bool :=
  match a, b with
  | Fin x, Fin y => Rleb x y
  | _, _ => false
  end.

Definition fgt (a b : npfloat) : bool :=
  match a, b with
  | Fin x, Fin y => Rgtb x y
  | _, _ => false
  end.

(** One element of the [args] tuple of an exception: a string, or the
    array (or [None]) of offending temperatures. *)
Inductive pyarg : Type :=
| AStr (s : string)
| ATemps (temps : option (list R)).

Inductive exn : Type :=
| ValueError (args : list pyarg)
| IndexError (args : list pyarg)
| NameError (args : list pyarg)
| ImportError (args : list pyarg)
| RuntimeError (args : list pyarg).

Inductive result (A : Type) : Type :=
| Ok (a : A)
| Raise (e : exn).
Arguments Ok {A} a.
Arguments Raise {A} e.

Definition bind {A B : Type} (c : result A) (k : A -> result B) : result B :=
  match c with
  | Ok a => k a
  | Raise e => Raise e
  end.

Notation "x <- c ;; k" := (bind c (fun x => k))
  (at level 61, c at next level, right associativity).
Notation "' pat <- c ;; k" := (bind c (fun x => match x with pat => k end))
  (at level 61, pat pattern, c at next level, right associativity).

(* ------------------------------------------------------------------ *)
(** ** units.py *)

Module Units.

(** The keys ['K'], ['C'], ['R'], ['F'] of the temperature-unit tables. *)
Inductive Tunit : Type := unit_K | unit_C | unit_R | unit_F.

(** The keys ['V'], ['mV'], ['uV'] of the voltage-unit tables. *)
Inductive Vunit : Type := unit_V | unit_mV | unit_uV.

(** The degree sign, code point 176. *)
Definition degree : string := String (Ascii.ascii_of_nat 176) "".

Definition Tunits_short (u : Tunit) : string :=
  match u with
  | unit_K => "K"
  | unit_C => String.append degree "C"
  | unit_R => String.append degree "R"
  | unit_F => String.append degree "F"
  end.

Definition Tunits_long (u : Tunit) : string :=
  match u with
  | unit_K => "kelvin"
  | unit_C => "degrees Celsius"
  | unit_R => "degrees Rankine"
  | unit_F => "degrees Fahrenheit"
  end.

(** A 2x2 conversion matrix [[mul, add], [0, 1]], by rows. *)
Definition matrix : Type := (R * R) * (R * R).

(** [m[0]]: the first row, unpacked by the callers as [mul, add]. *)
Definition row0 (m : matrix) : R * R := fst m.

(** [Tunits_mat['C']]: the two tables of matrices, from a unit to Celsius
    and from Celsius to a unit. *)
Record conversion_tables : Type := {
  from : Tunit -> matrix;
  to : Tunit -> matrix
}.

Definition Tunits_mat_C : conversion_tables := {|
  from := fun u =>
    match u with
    | unit_K => ((1, -273.15), (0, 1))
    | unit_C => ((1, 0), (0, 1))
    | unit_R => ((5/9, -273.15), (0, 1))
    | unit_F => ((5/9, -32*5/9), (0, 1))
    end;
  to := fun u =>
    match u with
    | unit_K => ((1, 273.15), (0, 1))
    | unit_C => ((1, 0), (0, 1))
    | unit_R => ((9/5, 491.67), (0, 1))
    | unit_F => ((9/5, 32), (0, 1))
    end
|}.

(** The affine map [value * mul + add] read off a matrix. *)
Definition apply_affine (m : matrix) (x : R) : R :=
  let '(mul, add) := row0 m in x * mul + add.

End Units.
Import Units.

(* ------------------------------------------------------------------ *)
(** ** numpy helpers *)

(** [np.arange(n, 0, -1)]: n, n-1, ..., 1 (empty when [n <= 0]). *)
Fixpoint arange_down (n : nat) : list R :=
  match n with
  | O => []
  | S k => INR n :: arange_down k
  end.

(** One round of [np.polyder]: [y = p[:-1] * arange(n, 0, -1)] with
    [n = len(p) - 1]. *)
Definition polyder_step (p : list R) : list R :=
  let n := (List.length p - 1)%nat in
  map (fun cy => fst cy * snd cy) (combine (removelast p) (arange_down n)).

Fixpoint polyder_iter (p : list R) (m : nat) : list R :=
  match m with
  | O => p
  | S k => polyder_iter (polyder_step p) k
  end.

(** [np.polyder(p, m)]; a negative order is refused. *)
Definition polyder (p : list R) (m : Z) : result (list R) :=
  if (m <? 0)%Z
  then Raise (ValueError [AStr "Order of derivative must be positive (see polyint)"])
  else Ok (polyder_iter p (Z.to_nat m)).

(** [np.polyval(p, x)]: Horner's rule, highest power first. *)
Definition polyval (p : list R) (x : R) : R :=
  fold_left (fun y pv => y * x + pv) p 0.

(** [np.extract(condition, arr)]. *)
Fixpoint np_extract (condition : list bool) (arr : list R) : list R :=
  match condition, arr with
  | c :: cs, a :: rest => if c then a :: np_extract cs rest else np_extract cs rest
  | _, _ => []
  end.

(** [np.any]. *)
Definition np_any (l : list bool) : bool := existsb (fun b => b) l.

(** [np.choose(selector, choices)]: element [j] of the result is element
    [j] of the choice numbered [selector[j]].  The entries of [choices] are
    arrays or the [None] placeholder. *)
Definition np_choose (selector : list nat) (choices : list (option (list npfloat)))
  : list npfloat :=
  map (fun js =>
         match nth (snd js) choices None with
         | Some arr => nth (fst js) arr NaN
         | None => NaN
         end)
      (combine (seq 0 (List.length selector)) selector).

(** [l[i] = v] on a Python list, for an index within bounds. *)
Fixpoint py_setitem {A : Type} (l : list A) (i : nat) (v : A) : list A :=
  match l, i with
  | [], _ => []
  | _ :: rest, O => v :: rest
  | a :: rest, S k => a :: py_setitem rest k v
  end.

Definition b2n (b : bool) : nat := if b then 1%nat else 0%nat.

(* ------------------------------------------------------------------ *)
(** ** function_types.py: Polynomial_Gaussian_Piecewise_Function *)

(** One entry of [.table]:
    [(minimum T, maximum T, polynomial coefs, exponential coefs)];
    the exponential coefs are [[a0, a1, a2]] or [None]. *)
Record Segment : Type := {
  seg_tmin : R;
  seg_tmax : R;
  seg_coefs : list R;
  seg_ec : option (R * R * R)
}.

Record Polynomial_Gaussian_Piecewise_Function : Type := {
  table : list Segment;
  Tunits : Tunit;
  Vunits : Vunit;
  source : string;
  calibration : string
}.

Definition err_ascending : exn :=
  ValueError [AStr "Temperature limits must be in ascending order."].
Definition err_contiguous : exn :=
  ValueError [AStr "Pieces' limits must be contiguous."].
Definition err_index : exn :=
  IndexError [AStr "list index out of range"].

(** The loop of [__init__] that checks the table. *)
Fixpoint check_table (lastmax : R) (tbl : list Segment) : result unit :=
  match tbl with
  | [] => Ok tt
  | s :: rest =>
      if negb (Rleb (seg_tmin s) (seg_tmax s)) then Raise err_ascending
      else if negb (Reqb (seg_tmin s) lastmax) then Raise err_contiguous
      else check_table (seg_tmax s) rest
  end.

(** [__init__]. *)
Definition PGPF_init (tbl : list Segment) (Tu : Tunit) (Vu : Vunit)
           (src cal : string) : result Polynomial_Gaussian_Piecewise_Function :=
  lastmax <- match tbl with
             | [] => Raise err_index
             | s :: _ => Ok (seg_tmin s)
             end ;;
  _ <- check_table lastmax tbl ;;
  Ok {| table := tbl; Tunits := Tu; Vunits := Vu;
        source := src; calibration := cal |}.

(** [self.table[0][0]]. *)
Definition minT (self : Polynomial_Gaussian_Piecewise_Function) : result R :=
  match table self with
  | [] => Raise err_index
  | s :: _ => Ok (seg_tmin s)
  end.

(** [self.table[-1][1]]. *)
Definition maxT (self : Polynomial_Gaussian_Piecewise_Function) : result R :=
  match table self with
  | [] => Raise err_index
  | s :: rest => Ok (seg_tmax (last rest s))
  end.

Definition err_policy (out_of_range : string) : exn :=
  ValueError [AStr "invalid out_of_range parameter"; AStr out_of_range].
Definition err_derivative : exn :=
  ValueError [AStr "sorry, derivatives > 3 not supported for this type."].
Definition err_range (Tu : Tunit) (u_temps o_temps : option (list R)) : exn :=
  ValueError [AStr (String.append "Temperatures ("
                      (String.append (Tunits_short Tu) ") under or over range:"));
              ATemps u_temps; ATemps o_temps].

(** What the Gaussian branch adds to [emf] at one element, for each
    supported order of derivative. *)
Definition gauss_increment (ec : R * R * R) (derivative : Z)
  : result (R -> R) :=
  let '(ec0, ec1, ec2) := ec in
  let dT := fun T => T - ec2 in
  let gauss := fun T => ec0 * exp (ec1 * (dT T) ^ 2) in
  if (derivative =? 0)%Z then Ok gauss
  else if (derivative =? 1)%Z then
    Ok (fun T => 2 * ec1 * gauss T * dT T)
  else if (derivative =? 2)%Z then
    Ok (fun T => 2 * ec1 * gauss T * (2 * ec1 * (dT T) ^ 2 + 1))
  else if (derivative =? 3)%Z then
    Ok (fun T => 4 * ec1 * ec1 * gauss T * dT T * (2 * ec1 * (dT T) ^ 2 + 3))
  else Raise err_derivative.

(** The function of one element that the loop body computes for a
    segment: the differentiated polynomial, plus the Gaussian term when the
    segment has one. *)
Definition segment_emf (s : Segment) (derivative : Z) : result (R -> R) :=
  pd <- polyder (seg_coefs s) derivative ;;
  match seg_ec s with
  | Some ec =>
      g <- gauss_increment ec derivative ;;
      Ok (fun T => polyval pd T + g T)
  | None => Ok (fun T => polyval pd T)
  end.

(** The loop over [self.table]: updates [selector] and appends one array
    to [emf_choices] per segment. *)
Fixpoint call_loop (T : list R) (derivative : Z) (tbl : list Segment)
         (selector : list nat) (emf_choices : list (option (list npfloat)))
  : result (list nat * list (option (list npfloat))) :=
  match tbl with
  | [] => Ok (selector, emf_choices)
  | s :: rest =>
      let selector :=
        map (fun st => (fst st + b2n (Rgtb (snd st) (seg_tmax s)))%nat)
            (combine selector T) in
      emf <- segment_emf s derivative ;;
      call_loop T derivative rest selector
                (emf_choices ++ [Some (map (fun t => Fin (emf t)) T)])
  end.

Definition valid_policy (out_of_range : string) : bool :=
  existsb (String.eqb out_of_range) ["raise"; "nan"; "extrapolate"].

(** The part of [__call__] before the policy is applied: the selector and
    the list [emf_choices] (with its two [None] placeholders). *)
Definition call_pieces (self : Polynomial_Gaussian_Piecewise_Function)
           (T : list R) (derivative : Z)
  : result (list nat * list (option (list npfloat))) :=
  tmin <- minT self ;;
  let selector := map (fun t => (b2n (Rgeb t tmin) * 1)%nat) T in
  ' (selector, emf_choices) <-
      call_loop T derivative (table self) selector [None] ;;
  Ok (selector, emf_choices ++ [None]).

(** [__call__]. *)
Definition call (self : Polynomial_Gaussian_Piecewise_Function)
           (T : list R) (derivative : Z) (out_of_range : string)
  : result (list npfloat) :=
  if negb (valid_policy out_of_range) then Raise (err_policy out_of_range)
  else
    ' (selector, emf_choices) <- call_pieces self T derivative ;;
    let n := List.length emf_choices in
    let emf_choices :=
      if String.eqb out_of_range "nan" then
        let c := py_setitem emf_choices 0 (Some (map (fun _ => NaN) T)) in
        py_setitem c (n - 1) (nth 0 c None)
      else
        let c := py_setitem emf_choices 0 (nth 1 emf_choices None) in
        py_setitem c (n - 1) (nth (n - 2) c None) in
    let raised :=
      if String.eqb out_of_range "raise" then
        let unders := map (fun s => (s <=? 0)%nat) selector in
        let overs := map (fun s => (List.length (table self) <? s)%nat) selector in
        if np_any unders || np_any overs then
          let u_temps := np_extract unders T in
          let o_temps := np_extract overs T in
          let u_temps := if (List.length u_temps =? 0)%nat then None else Some u_temps in
          let o_temps := if (List.length o_temps =? 0)%nat then None else Some o_temps in
          Some (err_range (Tunits self) u_temps o_temps)
        else None
      else None in
    match raised with
    | Some e => Raise e
    | None => Ok (np_choose selector emf_choices)
    end.

(** [self(T)] for a scalar [T]. *)
Definition call_scalar (self : Polynomial_Gaussian_Piecewise_Function)
           (T : R) (derivative : Z) (out_of_range : string) : result npfloat :=
  v <- call self [T] derivative out_of_range ;;
  Ok (hd NaN v).

(* ------------------------------------------------------------------ *)
(** ** function_types.py: inverse lookup *)

(** The two solvers of [scipy.optimize] that [inverse] calls, with the
    arguments it passes: [newton(func, x0, fprime, fprime2, tol)] and
    [brentq(f, a, b)].  They are code of SciPy, not of this package, and
    stay abstract: each returns a root or raises. *)
Record scipy_optimize : Type := {
  newton : (R -> result npfloat) -> R -> (R -> result npfloat) ->
           (R -> result npfloat) -> R -> result R;
  brentq : (R -> result npfloat) -> R -> R -> result R
}.

Definition err_import : exn :=
  ImportError [AStr "Inverse lookup requires scipy.optimize module. Please install SciPy."].
Definition err_voltage_range : exn :=
  ValueError [AStr "Voltage not within in allowed range."].
Definition err_not_converged : exn :=
  ValueError [AStr "Did not converge within tolerance."].

(** [e.args == ("f(a) and f(b) must have different signs",)]. *)
Definition is_sign_error (args : list pyarg) : bool :=
  match args with
  | [AStr s] => String.eqb s "f(a) and f(b) must have different signs"
  | _ => false
  end.

Section Inverse.

(** What [import scipy.optimize] gives: the module, or nothing when SciPy
    is not installed. *)
Variable scipy : option scipy_optimize.

Definition ensure_import_optimize : result scipy_optimize :=
  match scipy with
  | Some optimize => Ok optimize
  | None => Raise err_import
  end.

(** The first [try] block of [inverse]: Newton's method, then the check of
    the result under the default policy. *)
Definition inverse_newton (optimize : scipy_optimize)
           (self : Polynomial_Gaussian_Piecewise_Function)
           (V : npfloat) (Tstart Vtol : R) : result R :=
  let fun0 := fun T => v <- call_scalar self T 0 "extrapolate" ;; Ok (fsub v V) in
  let fun1 := fun T => call_scalar self T 1 "extrapolate" in
  let fun2 := fun T => call_scalar self T 2 "extrapolate" in
  T <- newton optimize fun0 Tstart fun1 fun2 Vtol ;;
  v <- call_scalar self T 0 "raise" ;;
  if fgt (fabs (fsub v V)) (Fin Vtol) then Raise (ValueError []) else Ok T.

(** The [except] block of [inverse]: [brentq] on the whole range, the
    sign error translated, then the check of the result under ["nan"]. *)
Definition inverse_brentq (optimize : scipy_optimize)
           (self : Polynomial_Gaussian_Piecewise_Function)
           (V : npfloat) (Vtol : R) : result R :=
  let fun0 := fun T => v <- call_scalar self T 0 "extrapolate" ;; Ok (fsub v V) in
  T <- match (a <- minT self ;; b <- maxT self ;; brentq optimize fun0 a b) with
       | Ok T => Ok T
       | Raise (ValueError args) =>
           if is_sign_error args then Raise err_voltage_range
           else Raise (ValueError args)
       | Raise e => Raise e
       end ;;
  v <- call_scalar self T 0 "nan" ;;
  if negb (fle (fabs (fsub v V)) (Fin Vtol)) then Raise err_not_converged
  else Ok T.

(** [inverse]. *)
Definition inverse (self : Polynomial_Gaussian_Piecewise_Function)
           (V : npfloat) (Tstart : option R) (Vtol : R) : result R :=
  optimize <- ensure_import_optimize ;;
  Tstart <- match Tstart with
            | None => a <- minT self ;; b <- maxT self ;; Ok (0.5 * (a + b))
            | Some t => Ok t
            end ;;
  match inverse_newton optimize self V Tstart Vtol with
  | Ok T => Ok T
  | Raise _ => inverse_brentq optimize self V Vtol
  end.

(* ------------------------------------------------------------------ *)
(** ** function_types.py: Thermocouple_Reference *)

Record Thermocouple_Reference : Type := {
  func : Polynomial_Gaussian_Piecewise_Function;
  _mats_Tunits_to : Tunit -> matrix;
  _mats_Tunits_from : Tunit -> matrix;
  ttype : string;
  composition : string
}.

Definition err_units : exn :=
  ValueError [AStr "Only mV <- deg C functions supported right now."].
Definition err_name_mul : exn :=
  NameError [AStr "name 'mul' is not defined"].

Definition is_C (u : Tunit) : bool :=
  match u with unit_C => true | _ => false end.
Definition is_mV (u : Vunit) : bool :=
  match u with unit_mV => true | _ => false end.

(** [Thermocouple_Reference.__init__]. *)
Definition TR_init (f : Polynomial_Gaussian_Piecewise_Function)
           (ty comp : string) : result Thermocouple_Reference :=
  if negb (is_C (Tunits f)) || negb (is_mV (Vunits f)) then Raise err_units
  else Ok {| func := f;
             _mats_Tunits_to := to Tunits_mat_C;
             _mats_Tunits_from := from Tunits_mat_C;
             ttype := ty;
             composition := comp |}.

(** [emf_mVC]: the conversion lines are commented out in the source. *)
Definition emf_mVC (self : Thermocouple_Reference) (T : list R) (Tref : R)
           (derivative : Z) (out_of_range : string) : result (list npfloat) :=
  f_T <- call (func self) T derivative out_of_range ;;
  if negb (derivative =? 0)%Z then Ok f_T
  else
    f_ref <- call_scalar (func self) Tref derivative out_of_range ;;
    Ok (map (fun v => fsub v f_ref) f_T).

(** The common body of [emf_mVF], [emf_mVK] and [emf_mVR], which differ
    in the key [u] of the conversion matrix only. *)
Definition emf_mV_unit (u : Tunit) (self : Thermocouple_Reference)
           (T : list R) (Tref : R) (derivative : Z) (out_of_range : string)
  : result (list npfloat) :=
  let '(mul, add) := row0 (_mats_Tunits_from self u) in
  let T := map (fun t => t * mul + add) T in
  f_T <- call (func self) T derivative out_of_range ;;
  if negb (derivative =? 0)%Z
  then Ok (map (fun v => fmul v (Fin (powerRZ mul derivative))) f_T)
  else
    let Tref := Tref * mul + add in
    f_ref <- call_scalar (func self) Tref derivative out_of_range ;;
    Ok (map (fun v => fsub v f_ref) f_T).

Definition emf_mVF := emf_mV_unit unit_F.
Definition emf_mVK := emf_mV_unit unit_K.
Definition emf_mVR := emf_mV_unit unit_R.

(** [emf + f_ref], with the float [emf] and the evaluated [f_ref]. *)
Definition fadd_emf (emf : R) (f_ref : npfloat) : npfloat :=
  match f_ref with
  | Fin r => Fin (emf + r)
  | NaN => NaN
  end.

(** [inverse_CmV]: the lines that bind [mul] and [add] are commented out,
    the line that converts [Tstart] with them is not. *)
Definition inverse_CmV (self : Thermocouple_Reference) (emf Tref : R)
           (Tstart : option R) (Vtol : R) : result R :=
  f_ref <- call_scalar (func self) Tref 0 "raise" ;;
  Tstart <- match Tstart with
            | Some _ => Raise err_name_mul
            | None => Ok None
            end ;;
  T <- inverse (func self) (fadd_emf emf f_ref) Tstart Vtol ;;
  Ok T.

(** The common body of [inverse_FmV], [inverse_KmV] and [inverse_RmV]. *)
Definition inverse_mV_unit (u : Tunit) (self : Thermocouple_Reference)
           (emf Tref : R) (Tstart : option R) (Vtol : R) : result R :=
  let '(mul, add) := row0 (_mats_Tunits_from self u) in
  let Tref := Tref * mul + add in
  f_ref <- call_scalar (func self) Tref 0 "raise" ;;
  let Tstart := match Tstart with
                | Some t => Some (t * mul + add)
                | None => None
                end in
  T <- inverse (func self) (fadd_emf emf f_ref) Tstart Vtol ;;
  let '(imul, iadd) := row0 (_mats_Tunits_to self u) in
  Ok (T * imul + iadd).

Definition inverse_FmV := inverse_mV_unit unit_F.
Definition inverse_KmV := inverse_mV_unit unit_K.
Definition inverse_RmV := inverse_mV_unit unit_R.

(** The method of the table of the class docstring for a unit system. *)
Definition EmfForward (u : Tunit) :=
  match u with
  | unit_C => emf_mVC
  | unit_F => emf_mVF
  | unit_K => emf_mVK
  | unit_R => emf_mVR
  end.

Definition EmfInverse (u : Tunit) :=
  match u with
  | unit_C => inverse_CmV
  | unit_F => inverse_FmV
  | unit_K => inverse_KmV
  | unit_R => inverse_RmV
  end.

End Inverse.

(* ------------------------------------------------------------------ *)
(** ** function_types.py: the range and the default reference of the helper object *)

(** [minT_C] and [maxT_C]. *)
Definition minT_C (self : Thermocouple_Reference) : result R :=
  let '(imul, iadd) := row0 (_mats_Tunits_to self unit_C) in
  m <- minT (func self) ;;
  Ok (m * imul + iadd).

Definition maxT_C (self : Thermocouple_Reference) : result R :=
  let '(imul, iadd) := row0 (_mats_Tunits_to self unit_C) in
  m <- maxT (func self) ;;
  Ok (m * imul + iadd).


(* ------------------------------------------------------------------ *)
(** ** source_ASTM.py *)

Module source_ASTM.

Definition _source : string := "ASTM E 1751-00".
Definition _cal : string := "ITS-90".

(** One entry of the dictionary:
    [Thermocouple_Reference(Polynomial_Gaussian_Piecewise_Function(table,
    'C', 'mV', calibration=_cal, source=...), ttype=..., composition=...)]. *)
Definition make (tbl : list Segment) (src ty comp : string)
  : result Thermocouple_Reference :=
  f <- PGPF_init tbl unit_C unit_mV src _cal ;;
  TR_init f ty comp.

Definition table_G : list Segment := [
  {| seg_tmin := 0; seg_tmax := 630.615;
     seg_coefs := [
        -1.7089202e-15; 4.3850022e-12; -1.1393234e-08; 2.1634754e-05;
        1.2792201e-03; 0.0000000e+00 ];
     seg_ec := None |};
  {| seg_tmin := 630.615; seg_tmax := 2315;
     seg_coefs := [
        -1.5534591e-25; 1.8120237e-21; -8.9888053e-18; 2.4455012e-14;
        -3.8615222e-11; 3.1141330e-08; -3.6467516e-06; 9.4962455e-03;
        -1.1064412e+00 ];
     seg_ec := None |} ].

Definition make_G : result Thermocouple_Reference :=
  make table_G (String.append _source ", Table 1") "Type G"
       "W - 74W,26Re".

Definition table_P : list Segment := [
  {| seg_tmin := 0; seg_tmax := 746.6;
     seg_coefs := [
        -3.6375467e-15; 1.4851327e-11; -3.4878428e-08; 3.5175152e-05;
        2.9819716e-02; 0.0000000e+00 ];
     seg_ec := None |};
  {| seg_tmin := 746.6; seg_tmax := 1395;
     seg_coefs := [
        -9.3211269e-18; 5.4438760e-14; -1.2855115e-10; 1.5424937e-07;
        -1.0570233e-04; 8.5377200e-02; -8.9621838e+00 ];
     seg_ec := None |} ].

Definition make_P : result Thermocouple_Reference :=
  make table_P (String.append _source ", Table 3") "Type P (II)"
       "55Pd,31Pt,14Au - 65Au,35Pd".

Definition table_AuFe_0_07 : list Segment := [
  {| seg_tmin := -273; seg_tmax := 7;
     seg_coefs := [
        6.8263661580e-31; 1.1010930596e-27; 7.8225430483e-25;
        3.2146639387e-22; 8.4287909747e-20; 1.4636450149e-17;
        1.6829773697e-15; 1.2272348484e-13; 4.9063035769e-12;
        4.0432555769e-11; -4.5260169888e-09; -1.5967928202e-07;
        3.6406179664e-06; 2.2272367466e-02; 0.0000000000e+00 ];
     seg_ec := None |} ].

Definition make_AuFe_0_07 : result Thermocouple_Reference :=
  make table_AuFe_0_07 (String.append _source ", Table 5") "Chromel-AuFe0.07"
       "90Ni,10Cr - Au,0.07(atom%)Fe".

Definition table_PtMo_5_0_1 : list Segment := [
  {| seg_tmin := 0; seg_tmax := 491;
     seg_coefs := [
        -2.0186476e-19; 3.3574252e-16; -2.3848950e-13; 1.0585770e-10;
        -4.3368594e-08; 2.8410937e-05; 1.0501456e-02; 0.0000000e+00 ];
     seg_ec := None |};
  {| seg_tmin := 491; seg_tmax := 1600;
     seg_coefs := [
        9.4670862e-24; -7.6717268e-20; 2.6865173e-16; -5.3071212e-13;
        6.4615219e-10; -4.9920472e-07; 2.4913353e-04; -4.8776479e-02;
        6.8354086e+00 ];
     seg_ec := None |} ].

Definition make_PtMo_5_0_1 : result Thermocouple_Reference :=
  make table_PtMo_5_0_1 (String.append _source ", Table 7") "PtMo 5-0.1"
       "95Pt,5Mo - 99.9Pt,0.1Mo".

Definition table_PtRh_40_20 : list Segment := [
  {| seg_tmin := 0; seg_tmax := 951.7;
     seg_coefs := [
        -2.8497160e-22; 1.0033974e-18; -1.5406939e-15; 1.0382985e-12;
        4.2594137e-10; 3.9360320e-07; 3.6246289e-04; 0.0000000e+00 ];
     seg_ec := None |};
  {| seg_tmin := 951.7; seg_tmax := 1888;
     seg_coefs := [
        -1.2619640e-20; 1.1516280e-16; -1.0824710e-12; 3.6728697e-09;
        -3.9077442e-06; 3.5246931e-03; -9.1201877e-01 ];
     seg_ec := None |} ].

Definition make_PtRh_40_20 : result Thermocouple_Reference :=
  make table_PtRh_40_20 (String.append _source ", Table 9") "PtRh 40-20"
       "60Pt,40Rh - 80Pt,20Rh".

Definition table_M : list Segment := [
  {| seg_tmin := -50; seg_tmax := 370.8;
     seg_coefs := [
        -3.394387900e-19; -9.738054601e-17; 1.846977453e-13;
        -1.025216130e-10; -3.142898226e-08; 4.408522682e-05;
        3.690092195e-02; 0.000000000e+00 ];
     seg_ec := None |};
  {| seg_tmin := 370.8; seg_tmax := 1410;
     seg_coefs := [
        1.027600874e-25; -7.864442961e-22; 2.627522669e-18;
        -5.041679909e-15; 6.145877457e-12; -4.958763813e-09;
        2.650568429e-06; -8.846963426e-04; 2.059913943e-01; -1.145582129e+01 ];
     seg_ec := None |} ].

Definition make_M : result Thermocouple_Reference :=
  make table_M (String.append _source ", Table 11") "Type M"
       "82Ni,18Mo - 99.2Ni,0.8Co".

Definition table_IrRh_40_0 : list Segment := [
  {| seg_tmin := 0; seg_tmax := 630.615;
     seg_coefs := [
        -7.9634082e-23; 1.5270867e-19; -1.0418040e-16; 2.6762413e-14;
        2.7700591e-12; -7.8890504e-09; 6.9649773e-06; 3.0870016e-03;
        0.0000000e+00 ];
     seg_ec := None |};
  {| seg_tmin := 630.615; seg_tmax := 2110;
     seg_coefs := [
        3.0821886e-20; -5.1797037e-16; 2.7235393e-12; -6.0547943e-09;
        5.7455189e-06; 3.6588615e-03; -9.6839082e-02 ];
     seg_ec := None |} ].

Definition make_IrRh_40_0 : result Thermocouple_Reference :=
  make table_IrRh_40_0 (String.append _source ", Table 13") "IrRh 40-0"
       "60Ir,40Rh - Ir".

Definition table_Au_Pt : list Segment := [
  {| seg_tmin := 0; seg_tmax := 1000;
     seg_coefs := map (Rmult 1e-3) [
        -2.51672787e-24; 1.42981590e-20; -3.39430259e-17; 4.56927038e-14;
        -4.24206193e-11; 3.28711859e-08; -2.22998614e-05; 1.93672974e-02;
        6.03619861e+00; 0.00000000e+00 ];
     seg_ec := None |} ].

Definition make_Au_Pt : result Thermocouple_Reference :=
  make table_Au_Pt (String.append _source ", Table 15") "Au-Pt"
       "Au - Pt".

Definition table_Pt_Pd : list Segment := [
  {| seg_tmin := 0; seg_tmax := 660.323;
     seg_coefs := map (Rmult 1e-3) [
        -8.510068e-21; 2.257823e-17; -1.268514e-14; -2.012523e-11;
        2.992243e-08; -9.602271e-06; 4.610494e-03; 5.296958e+00;
        0.000000e+00 ];
     seg_ec := None |};
  {| seg_tmin := 660.323; seg_tmax := 1500;
     seg_coefs := map (Rmult 1e-3) [
        -1.3570737e-15; 9.5627366e-12; -2.6901509e-08; 3.6361700e-05;
        -1.5793515e-02; 1.0182545e+01; -4.9771370e+02 ];
     seg_ec := None |} ].

Definition make_Pt_Pd : result Thermocouple_Reference :=
  make table_Pt_Pd (String.append _source ", Table 17") "Pt-Pd"
       "Pt - Pd".

(** The dictionary [thermocouples]: its entries are built in order, and an
    exception of a constructor leaves the module unloaded. *)
Definition thermocouples : result (list (string * Thermocouple_Reference)) :=
  tc_G <- make_G ;;
  tc_P <- make_P ;;
  tc_AuFe_0_07 <- make_AuFe_0_07 ;;
  tc_PtMo_5_0_1 <- make_PtMo_5_0_1 ;;
  tc_PtRh_40_20 <- make_PtRh_40_20 ;;
  tc_M <- make_M ;;
  tc_IrRh_40_0 <- make_IrRh_40_0 ;;
  tc_Au_Pt <- make_Au_Pt ;;
  tc_Pt_Pd <- make_Pt_Pd ;;
  Ok [("G", tc_G);
      ("P", tc_P);
      ("AuFe 0.07", tc_AuFe_0_07);
      ("PtMo 5-0.1", tc_PtMo_5_0_1);
      ("PtRh 40-20", tc_PtRh_40_20);
      ("M", tc_M);
      ("IrRh 40-0", tc_IrRh_40_0);
      ("Au-Pt", tc_Au_Pt);
      ("Pt-Pd", tc_Pt_Pd)].

End source_ASTM.

(* ------------------------------------------------------------------ *)
(** ** __init__.py *)

(** A Python dictionary with string keys: its items in insertion order,
    with distinct keys. *)
Definition pydict (V : Type) : Type := list (string * V).

(** [d[k]]; [None] stands for the [KeyError]. *)
Fixpoint dict_get {V : Type} (d : pydict V) (k : string) : option V :=
  match d with
  | [] => None
  | (k', v) :: rest => if String.eqb k k' then Some v else dict_get rest k
  end.

(** [d[k] = v]: the value of an existing key is replaced, a new key is
    added at the end. *)
Fixpoint dict_set {V : Type} (d : pydict V) (k : string) (v : V) : pydict V :=
  match d with
  | [] => [(k, v)]
  | (k', v') :: rest =>
      if String.eqb k k' then (k', v) :: rest else (k', v') :: dict_set rest k v
  end.

(** [d.update(other)]. *)
Definition dict_update {V : Type} (d other : pydict V) : pydict V :=
  fold_left (fun acc kv => dict_set acc (fst kv) (snd kv)) other d.

(** The statements that assemble [thermocouples] from the dictionaries of
    the three source modules. *)
Definition assemble_thermocouples {V : Type} (source_OMEGA source_NIST source_ASTM : pydict V)
  : pydict V :=
  let thermocouples := [] in
  let thermocouples := dict_update thermocouples source_OMEGA in
  let thermocouples := dict_update thermocouples source_NIST in
  let thermocouples := dict_update thermocouples source_ASTM in
  thermocouples.

(* ------------------------------------------------------------------ *)
(** ** Vocabulary of the statements, and example objects *)

(** A polynomial-only function with two segments, 0..10 and 10..20. *)
Definition demo_table : list Segment :=
  [ {| seg_tmin := 0; seg_tmax := 10; seg_coefs := [2; 1]; seg_ec := None |};
    {| seg_tmin := 10; seg_tmax := 20; seg_coefs := [1; 0; 0]; seg_ec := None |} ].

Definition demo_func : Polynomial_Gaussian_Piecewise_Function :=
  {| table := demo_table; Tunits := unit_C; Vunits := unit_mV;
     source := "demo"; calibration := "ITS-90" |}.

(** What the loop of [__init__] accepts, started with [lastmax]. *)
Fixpoint chain (lastmax : R) (tbl : list Segment) : Prop :=
  match tbl with
  | [] => True
  | s :: rest =>
      seg_tmin s <= seg_tmax s /\ seg_tmin s = lastmax /\ chain (seg_tmax s) rest
  end.

(** Every segment has [minTemp <= maxTemp]. *)
Definition ranges_ascending (tbl : list Segment) : Prop :=
  Forall (fun s => seg_tmin s <= seg_tmax s) tbl.

(** Every segment's [minTemp] is the previous segment's [maxTemp]. *)
Definition ranges_contiguous (tbl : list Segment) : Prop :=
  forall (i : nat) (a b : Segment),
    nth_error tbl i = Some a -> nth_error tbl (S i) = Some b ->
    seg_tmin b = seg_tmax a.

(** The segments are sorted by range: an earlier segment ends at or before
    the start of a later one. *)
Definition ranges_sorted (tbl : list Segment) : Prop :=
  forall (i j : nat) (a b : Segment),
    (i < j)%nat -> nth_error tbl i = Some a -> nth_error tbl j = Some b ->
    seg_tmax a <= seg_tmin b.

Definition valid_table (tbl : list Segment) : Prop :=
  tbl <> [] /\ ranges_ascending tbl /\ ranges_contiguous tbl.

(** The functions of one element computed for the segments, in order; the
    first segment that raises decides the exception. *)
Fixpoint segment_emfs (tbl : list Segment) (derivative : Z)
  : result (list (R -> R)) :=
  match tbl with
  | [] => Ok []
  | s :: rest =>
      g <- segment_emf s derivative ;;
      gs <- segment_emfs rest derivative ;;
      Ok (g :: gs)
  end.

(** How many segment upper bounds an input exceeds. *)
Fixpoint count_over (tbl : list Segment) (t : R) : nat :=
  match tbl with
  | [] => 0%nat
  | s :: rest => (b2n (Rgtb t (seg_tmax s)) + count_over rest t)%nat
  end.

(** The selector of one input, as the code accumulates it. *)
Definition selector_of (tmin : R) (tbl : list Segment) (t : R) : nat :=
  (b2n (Rgeb t tmin) * 1 + count_over tbl t)%nat.

(** The array computed for a segment from its function of one element. *)
Definition emf_array (T : list R) (g : R -> R) : option (list npfloat) :=
  Some (map (fun t => Fin (g t)) T).

Definition fin_of (g : R -> R) : R -> npfloat := fun t => Fin (g t).

(** The entries of the final [emf_choices], as functions of one element:
    the under-range entry, one entry per segment, the over-range entry. *)
Definition policy_choices (out_of_range : string) (fs : list (R -> R))
  : list (R -> npfloat) :=
  match fs with
  | [] => []
  | f0 :: fs' =>
      let under := if String.eqb out_of_range "nan" then (fun _ => NaN)
                   else fin_of f0 in
      let over := if String.eqb out_of_range "nan" then (fun _ => NaN)
                  else fin_of (last fs' f0) in
      (under :: map fin_of fs) ++ [over]
  end.

(** [None] for an empty array of offending temperatures. *)
Definition none_if_empty (temps : list R) : option (list R) :=
  if (List.length temps =? 0)%nat then None else Some temps.

(** The function objects that [__init__] returns. *)
Definition constructed (self : Polynomial_Gaussian_Piecewise_Function) : Prop :=
  exists tbl Tu Vu src cal, PGPF_init tbl Tu Vu src cal = Ok self.

(** [minT <= t <= maxT]. *)
Definition in_range (self : Polynomial_Gaussian_Piecewise_Function) (t : R) : Prop :=
  exists a b, minT self = Ok a /\ maxT self = Ok b /\ a <= t <= b.

(** Some segment of the table has a Gaussian term. *)
Definition has_gaussian (self : Polynomial_Gaussian_Piecewise_Function) : Prop :=
  exists s ec, In s (table self) /\ seg_ec s = Some ec.

(** A polynomial-only function on 10..20 whose value is the temperature
    itself. *)
Definition narrow_table : list Segment :=
  [ {| seg_tmin := 10; seg_tmax := 20; seg_coefs := [1; 0]; seg_ec := None |} ].

Definition narrow_func : Polynomial_Gaussian_Piecewise_Function :=
  {| table := narrow_table; Tunits := unit_C; Vunits := unit_mV;
     source := "example"; calibration := "ITS-90" |}.

(** A function on 0..10 with a Gaussian term. *)
Definition bump_table : list Segment :=
  [ {| seg_tmin := 0; seg_tmax := 10; seg_coefs := [1; 0];
       seg_ec := Some (1, -1, 5) |} ].

Definition bump_func : Polynomial_Gaussian_Piecewise_Function :=
  {| table := bump_table; Tunits := unit_C; Vunits := unit_mV;
     source := "example"; calibration := "ITS-90" |}.

(** The value of a segment at a temperature: its polynomial, plus its
    Gaussian term [a0 * exp(a1 * (t - a2)^2)] when it has one. *)
Definition poly_gauss_value (s : Segment) : R -> R :=
  match seg_ec s with
  | Some (a0, a1, a2) =>
      fun t => polyval (seg_coefs s) t + a0 * exp (a1 * (t - a2) ^ 2)
  | None => fun t => polyval (seg_coefs s) t
  end.

(** [|self(T) - V| <= Vtol], with [self(T)] the evaluation under the
    default policy (so [T] is in range). *)
Definition residual_ok (self : Polynomial_Gaussian_Piecewise_Function)
           (T V Vtol : R) : Prop :=
  exists r, call_scalar self T 0 "raise" = Ok (Fin r) /\ Rabs (r - V) <= Vtol.

(** The function [fun0] handed to the solvers. *)
Definition fun0 (self : Polynomial_Gaussian_Piecewise_Function) (V : npfloat)
  : R -> result npfloat :=
  fun T => v <- call_scalar self T 0 "extrapolate" ;; Ok (fsub v V).

(** What [inverse] does with an exception of [brentq]. *)
Definition brentq_reraised (e : exn) : exn :=
  match e with
  | ValueError args => if is_sign_error args then err_voltage_range else e
  | _ => e
  end.

(** Two solvers for the examples: each returns its first guess. *)
Definition fixed_solvers : scipy_optimize :=
  {| newton := fun _ x0 _ _ _ => Ok x0;
     brentq := fun _ a _ => Ok a |}.

(** The objects that [Thermocouple_Reference(...)] returns, over a
    constructed function. *)
Definition is_facade (tc : Thermocouple_Reference) : Prop :=
  exists f ty comp, constructed f /\ TR_init f ty comp = Ok tc.

(** A temperature in unit [u] converted to Celsius with the ['from']
    coefficients. *)
Definition celsius_of (u : Tunit) (t : R) : R :=
  apply_affine (from Tunits_mat_C u) t.

(** The ['from'] multiplier of a unit. *)
Definition from_multiplier (u : Tunit) : R := fst (row0 (from Tunits_mat_C u)).

(** The helper objects over the example functions. *)
Definition narrow_facade : Thermocouple_Reference :=
  {| func := narrow_func;
     _mats_Tunits_to := to Tunits_mat_C;
     _mats_Tunits_from := from Tunits_mat_C;
     ttype := "Type X";
     composition := "A - B" |}.

Definition demo_facade : Thermocouple_Reference :=
  {| func := demo_func;
     _mats_Tunits_to := to Tunits_mat_C;
     _mats_Tunits_from := from Tunits_mat_C;
     ttype := "Type Y";
     composition := "A - B" |}.

(** The Gaussian term and its argument, as [__call__] writes them. *)
Definition gauss_dT (ec2 : R) : R -> R := fun T => T - ec2.
Definition gauss_fn (ec0 ec1 ec2 : R) : R -> R :=
  fun T => ec0 * exp (ec1 * (gauss_dT ec2 T) ^ 2).

(** The real number an evaluation returns (0 when it raises or is NaN). *)
Definition float_value (r : result npfloat) : R :=
  match r with
  | Ok (Fin x) => x
  | _ => 0
  end.

(** The function of the temperature that [self(T, derivative, out_of_range)]
    computes. *)
Definition emf_function (self : Polynomial_Gaussian_Piecewise_Function)
           (derivative : Z) (out_of_range : string) : R -> R :=
  fun t => float_value (call_scalar self t derivative out_of_range).

Definition err_polyder_order : exn :=
  ValueError [AStr "Order of derivative must be positive (see polyint)"].

(** The start guess as [inverse] receives it from the method of a unit:
    converted to Celsius, except that the Celsius method raises on a guess
    that is not [None]. *)
Definition forwarded_guess (u : Tunit) (Tstart : option R) : result (option R) :=
  match u, Tstart with
  | unit_C, Some _ => Raise err_name_mul
  | _, Some t => Ok (Some (celsius_of u t))
  | _, None => Ok None
  end.

(** The result of the Celsius method scaled for a derivative in unit [u]. *)
Definition scaled (u : Tunit) (derivative : Z) (r : result (list npfloat))
  : result (list npfloat) :=
  f_T <- r ;;
  Ok (map (fun v => fmul v (Fin (powerRZ (from_multiplier u) derivative))) f_T).

(** The keys of a dictionary are distinct. *)
Definition distinct_keys {V : Type} (d : pydict V) : Prop := NoDup (map fst d).

(** The object that [source_ASTM.make] returns for a table that passes the
    checks. *)
Definition astm_object (tbl : list Segment) (src ty comp : string)
  : Thermocouple_Reference :=
  {| func := {| table := tbl; Tunits := unit_C; Vunits := unit_mV;
                source := src; calibration := source_ASTM._cal |};
     _mats_Tunits_to := to Tunits_mat_C;
     _mats_Tunits_from := from Tunits_mat_C;
     ttype := ty;
     composition := comp |}.

(* ------------------------------------------------------------------ *)
(** ** Unit conversion *)

(** C9.  For each of the four units, converting a Celsius value to the unit
    with the ['to'] coefficients and back with the ['from'] coefficients
    returns the value, and so does the opposite composition: the two stored
    affine maps are inverse to each other (in real arithmetic). *)
Theorem unit_round_trip :
  forall (u : Tunit) (x : R),
    apply_affine (from Tunits_mat_C u) (apply_affine (to Tunits_mat_C u) x) = x /\
    apply_affine (to Tunits_mat_C u) (apply_affine (from Tunits_mat_C u) x) = x.
Proof.
  intros u x; destruct u; unfold apply_affine, row0; simpl; split; lra.
Qed.

(* ------------------------------------------------------------------ *)
(** ** Comparisons on reals *)

Lemma Rleb_true (x y : R) : x <= y -> Rleb x y = true.
Proof. intros H; unfold Rleb; destruct (Rle_dec x y); [reflexivity | contradiction]. Qed.

Lemma Rleb_false (x y : R) : y < x -> Rleb x y = false.
Proof. intros H; unfold Rleb; destruct (Rle_dec x y); [lra | reflexivity]. Qed.

Lemma Rltb_true (x y : R) : x < y -> Rltb x y = true.
Proof. intros H; unfold Rltb; destruct (Rlt_dec x y); [reflexivity | contradiction]. Qed.

Lemma Rltb_false (x y : R) : y <= x -> Rltb x y = false.
Proof. intros H; unfold Rltb; destruct (Rlt_dec x y); [lra | reflexivity]. Qed.

Lemma Reqb_true (x y : R) : x = y -> Reqb x y = true.
Proof. intros H; unfold Reqb; destruct (Req_dec_T x y); [reflexivity | contradiction]. Qed.

Lemma Reqb_false (x y : R) : x <> y -> Reqb x y = false.
Proof. intros H; unfold Reqb; destruct (Req_dec_T x y); [contradiction | reflexivity]. Qed.

Lemma Rleb_spec (x y : R) : Rleb x y = true <-> x <= y.
Proof. unfold Rleb; destruct (Rle_dec x y); split; intros; (assumption || discriminate || reflexivity || contradiction). Qed.

Lemma Rltb_spec (x y : R) : Rltb x y = true <-> x < y.
Proof. unfold Rltb; destruct (Rlt_dec x y); split; intros; (assumption || discriminate || reflexivity || contradiction). Qed.

Lemma Reqb_spec (x y : R) : Reqb x y = true <-> x = y.
Proof. unfold Reqb; destruct (Req_dec_T x y); split; intros; (assumption || discriminate || reflexivity || contradiction). Qed.

(** Decides the comparisons of the goal whose outcome [lra] can settle. *)
Ltac rcompare :=
  unfold Rgeb, Rgtb;
  repeat match goal with
         | |- context [Rleb ?a ?b] =>
             first [ rewrite (Rleb_true a b) by lra | rewrite (Rleb_false a b) by lra ]
         | |- context [Rltb ?a ?b] =>
             first [ rewrite (Rltb_true a b) by lra | rewrite (Rltb_false a b) by lra ]
         | |- context [Reqb ?a ?b] =>
             first [ rewrite (Reqb_true a b) by lra | rewrite (Reqb_false a b) by lra ]
         end.

Example demo_init : PGPF_init demo_table unit_C unit_mV "demo" "ITS-90" = Ok demo_func.
Proof. unfold PGPF_init, demo_table; simpl. rcompare. simpl. reflexivity. Qed.

Example demo_call :
  call demo_func [5; 10; 15] 0 "raise" = Ok [Fin 11; Fin 21; Fin 225].
Proof.
  unfold call, call_pieces, demo_func, demo_table; simpl. rcompare. simpl.
  unfold np_choose; simpl. unfold polyval; simpl.
  repeat f_equal; lra.
Qed.

(* ------------------------------------------------------------------ *)
(** ** Tables accepted by the constructor *)

Lemma check_table_chain (tbl : list Segment) :
  forall lastmax, check_table lastmax tbl = Ok tt <-> chain lastmax tbl.
Proof.
  induction tbl as [|s rest IH]; intros lastmax; simpl.
  - tauto.
  - destruct (Rle_dec (seg_tmin s) (seg_tmax s)) as [Hle|Hle].
    + rewrite (Rleb_true _ _ Hle); simpl.
      destruct (Req_dec_T (seg_tmin s) lastmax) as [He|He].
      * rewrite (Reqb_true _ _ He); simpl. rewrite IH. tauto.
      * rewrite (Reqb_false _ _ He); simpl. unfold err_contiguous.
        split; [discriminate | tauto].
    + rewrite Rleb_false by lra; simpl. unfold err_ascending.
      split; [discriminate | tauto].
Qed.

Lemma check_table_outcome (tbl : list Segment) :
  forall lastmax,
    check_table lastmax tbl = Ok tt \/
    check_table lastmax tbl = Raise err_ascending \/
    check_table lastmax tbl = Raise err_contiguous.
Proof.
  induction tbl as [|s rest IH]; intros lastmax; simpl.
  - now left.
  - destruct (Rleb (seg_tmin s) (seg_tmax s)); simpl; [|tauto].
    destruct (Reqb (seg_tmin s) lastmax); simpl; [apply IH | tauto].
Qed.

Lemma chain_contiguous (tbl : list Segment) :
  forall lastmax, chain lastmax tbl -> ranges_ascending tbl /\ ranges_contiguous tbl.
Proof.
  induction tbl as [|s rest IH]; intros lastmax H.
  - split; [constructor | intros [|i] a b Ha; discriminate Ha].
  - simpl in H. destruct H as (Hle & _ & Hc).
    destruct (IH _ Hc) as [Hasc Hcont]. split.
    + constructor; assumption.
    + intros [|i] a b Ha Hb; simpl in Ha, Hb.
      * injection Ha as <-. destruct rest as [|s' rest']; [discriminate|].
        simpl in Hb. injection Hb as <-. simpl in Hc. tauto.
      * eapply Hcont; eassumption.
Qed.

Lemma contiguous_chain (tbl : list Segment) :
  forall s, ranges_ascending (s :: tbl) -> ranges_contiguous (s :: tbl) ->
            chain (seg_tmin s) (s :: tbl).
Proof.
  induction tbl as [|s' rest IH]; intros s Hasc Hcont.
  - simpl. inversion Hasc; subst. tauto.
  - inversion Hasc as [|? ? Hs Hrest]; subst.
    assert (Hm : seg_tmin s' = seg_tmax s) by (apply (Hcont 0%nat); reflexivity).
    simpl. split; [assumption|]. split; [reflexivity|].
    rewrite <- Hm. apply IH; [assumption|].
    intros i a b Ha Hb. apply (Hcont (S i)); assumption.
Qed.

Lemma chain_sorted (tbl : list Segment) :
  forall lastmax, chain lastmax tbl ->
    ranges_sorted tbl /\
    (forall j b, nth_error tbl j = Some b -> lastmax <= seg_tmin b).
Proof.
  induction tbl as [|s rest IH]; intros lastmax H.
  - split; [intros i j a b _ Ha | intros j b Ha]; destruct j; try destruct i; discriminate.
  - simpl in H. destruct H as (Hle & Hm & Hc).
    destruct (IH _ Hc) as [Hs Hlow]. split.
    + intros i j a b Hij Ha Hb. destruct j as [|j]; [lia|]. simpl in Hb.
      destruct i as [|i]; simpl in Ha.
      * injection Ha as <-. eapply Hlow; eassumption.
      * apply (Hs i j); [lia | assumption | assumption].
    + intros [|j] b Hb; simpl in Hb.
      * injection Hb as <-. lra.
      * specialize (Hlow _ _ Hb). lra.
Qed.

(** C8.  Construction succeeds exactly for the non-empty tables whose
    segments all have [minTemp <= maxTemp] and each start where the previous
    one ends; a non-empty table that breaks one of the two conditions is
    refused with a [ValueError] (one of the two table messages); and the
    table of a constructed function is the one given, is non-empty,
    ascending, contiguous and sorted by range. *)
Theorem construction_validates_table :
  forall (tbl : list Segment) (Tu : Tunit) (Vu : Vunit) (src cal : string),
    ((exists f, PGPF_init tbl Tu Vu src cal = Ok f) <-> valid_table tbl) /\
    (tbl <> [] -> ~ (ranges_ascending tbl /\ ranges_contiguous tbl) ->
     PGPF_init tbl Tu Vu src cal = Raise err_ascending \/
     PGPF_init tbl Tu Vu src cal = Raise err_contiguous) /\
    (forall f, PGPF_init tbl Tu Vu src cal = Ok f ->
               table f = tbl /\ valid_table (table f) /\ ranges_sorted (table f)).
Proof.
  intros tbl Tu Vu src cal.
  assert (Hmain : forall f, PGPF_init tbl Tu Vu src cal = Ok f ->
                            table f = tbl /\ valid_table tbl /\ ranges_sorted tbl).
  { intros f H. unfold PGPF_init in H. destruct tbl as [|s rest]; [discriminate|].
    cbn [bind] in H.
    destruct (check_table (seg_tmin s) (s :: rest)) as [[]|e] eqn:Hc; [|discriminate].
    cbn [bind] in H. injection H as <-. simpl.
    apply check_table_chain in Hc.
    destruct (chain_contiguous _ _ Hc) as [Ha Hb].
    split; [reflexivity|]. split.
    - split; [discriminate | tauto].
    - apply (chain_sorted _ _ Hc). }
  split; [split|split].
  - intros [f H]. apply (Hmain f H).
  - intros (Hne & Ha & Hb). destruct tbl as [|s rest]; [contradiction|].
    unfold PGPF_init. cbn [bind].
    assert (Hc := contiguous_chain rest s Ha Hb).
    apply check_table_chain in Hc. rewrite Hc. cbn [bind]. eexists; reflexivity.
  - intros Hne Hbad. destruct tbl as [|s rest]; [contradiction|].
    unfold PGPF_init. cbn [bind].
    destruct (check_table_outcome (s :: rest) (seg_tmin s)) as [H|[H|H]].
    + exfalso. apply Hbad. apply check_table_chain in H.
      apply (chain_contiguous _ _ H).
    + rewrite H. now left.
    + rewrite H. now right.
  - intros f H. destruct (Hmain f H) as (Ht & Hv & Hs). rewrite Ht. tauto.
Qed.

Lemma construction_validates_table_witness :
  exists f, PGPF_init demo_table unit_C unit_mV "demo" "ITS-90" = Ok f /\
            valid_table (table f) /\ ranges_sorted (table f).
Proof.
  destruct (construction_validates_table demo_table unit_C unit_mV "demo" "ITS-90")
    as (_ & _ & Hinv).
  exists demo_func. split; [apply demo_init|].
  apply (Hinv demo_func demo_init).
Defined.

(* ------------------------------------------------------------------ *)
(** ** The loop of [__call__] *)

Lemma combine_map_self {A B : Type} (g : A -> B) (l : list A) :
  combine (map g l) l = map (fun t => (g t, t)) l.
Proof. induction l as [|a l IH]; simpl; [reflexivity | now rewrite IH]. Qed.

Lemma call_loop_spec (T : list R) (derivative : Z) (tbl : list Segment) :
  forall (g : R -> nat) (ch : list (option (list npfloat))),
    call_loop T derivative tbl (map g T) ch =
    (fs <- segment_emfs tbl derivative ;;
     Ok (map (fun t => (g t + count_over tbl t)%nat) T,
         ch ++ map (emf_array T) fs)).
Proof.
  induction tbl as [|s rest IH]; intros g ch; simpl.
  - rewrite app_nil_r. f_equal. f_equal. apply map_ext. intros t; lia.
  - destruct (segment_emf s derivative) as [emf|e]; simpl; [|reflexivity].
    rewrite combine_map_self, map_map. simpl.
    rewrite (IH (fun t => (g t + b2n (Rgtb t (seg_tmax s)))%nat)).
    destruct (segment_emfs rest derivative) as [fs|e]; simpl; [|reflexivity].
    rewrite <- app_assoc. simpl. f_equal. f_equal.
    apply map_ext. intros t; lia.
Qed.

Lemma call_pieces_spec (self : Polynomial_Gaussian_Piecewise_Function)
      (T : list R) (derivative : Z) (s0 : Segment) (rest : list Segment) :
  table self = s0 :: rest ->
  call_pieces self T derivative =
  (fs <- segment_emfs (table self) derivative ;;
   Ok (map (selector_of (seg_tmin s0) (table self)) T,
       (None :: map (emf_array T) fs) ++ [None])).
Proof.
  intros Ht. unfold call_pieces, minT. rewrite Ht. cbn [bind].
  rewrite (call_loop_spec T derivative (s0 :: rest)
             (fun t => (b2n (Rgeb t (seg_tmin s0)) * 1)%nat) [None]).
  destruct (segment_emfs (s0 :: rest) derivative) as [fs|e]; reflexivity.
Qed.

Lemma segment_emfs_length (tbl : list Segment) (derivative : Z) :
  forall fs, segment_emfs tbl derivative = Ok fs -> List.length fs = List.length tbl.
Proof.
  induction tbl as [|s rest IH]; intros fs H; simpl in H.
  - injection H as <-. reflexivity.
  - destruct (segment_emf s derivative) as [g|e]; simpl in H; [|discriminate].
    destruct (segment_emfs rest derivative) as [gs|e]; simpl in H; [|discriminate].
    injection H as <-. simpl. f_equal. now apply IH.
Qed.

Lemma segment_emfs_nth (tbl : list Segment) (derivative : Z) :
  forall fs i s, segment_emfs tbl derivative = Ok fs ->
    nth_error tbl i = Some s ->
    exists g, nth_error fs i = Some g /\ segment_emf s derivative = Ok g.
Proof.
  induction tbl as [|s' rest IH]; intros fs i s H Hi.
  - destruct i; discriminate.
  - simpl in H.
    destruct (segment_emf s' derivative) as [g|e] eqn:Hg; simpl in H; [|discriminate].
    destruct (segment_emfs rest derivative) as [gs|e] eqn:Hgs; simpl in H; [|discriminate].
    injection H as <-. destruct i as [|i]; simpl in Hi |- *.
    + injection Hi as <-. exists g. tauto.
    + eapply IH; [reflexivity | eassumption].
Qed.

(* ------------------------------------------------------------------ *)
(** ** The selector on a valid table *)

Lemma count_over_zero (tbl : list Segment) :
  forall lastmax t, chain lastmax tbl -> t <= lastmax -> count_over tbl t = 0%nat.
Proof.
  induction tbl as [|s rest IH]; intros lastmax t H Ht; simpl; [reflexivity|].
  simpl in H. destruct H as (Hle & Hm & Hc).
  unfold Rgtb. rewrite Rltb_false by lra. simpl.
  apply (IH (seg_tmax s)); [assumption | lra].
Qed.

Lemma count_over_prefix (tbl : list Segment) :
  forall lastmax t, chain lastmax tbl ->
    (count_over tbl t <= List.length tbl)%nat /\
    (forall i a, (i < count_over tbl t)%nat -> nth_error tbl i = Some a ->
                 seg_tmax a < t) /\
    (forall i a, (count_over tbl t <= i)%nat -> nth_error tbl i = Some a ->
                 t <= seg_tmax a).
Proof.
  induction tbl as [|s rest IH]; intros lastmax t H.
  - simpl. split; [lia|]. split; intros i a _ Ha; destruct i; discriminate.
  - simpl in H. destruct H as (Hle & Hm & Hc).
    destruct (IH _ t Hc) as (Hlen & Hlow & Hhigh). simpl.
    destruct (Rlt_dec (seg_tmax s) t) as [Hgt|Hngt].
    + unfold Rgtb. rewrite (Rltb_true _ _ Hgt). simpl.
      split; [lia|]. split.
      * intros [|i] a Hi Ha; simpl in Ha.
        -- injection Ha as <-. assumption.
        -- apply (Hlow i); [lia | assumption].
      * intros [|i] a Hi Ha; [lia|]. simpl in Ha.
        apply (Hhigh i); [lia | assumption].
    + unfold Rgtb. rewrite Rltb_false by lra. simpl.
      assert (Hz : count_over rest t = 0%nat)
        by (apply (count_over_zero rest (seg_tmax s)); [assumption | lra]).
      rewrite Hz in *. split; [lia|]. split.
      * intros i a Hi; lia.
      * intros [|i] a _ Ha; simpl in Ha.
        -- injection Ha as <-. lra.
        -- apply (Hhigh i); [lia | assumption].
Qed.

Lemma last_cons_default {A : Type} (l : list A) :
  forall a d d', last (a :: l) d = last (a :: l) d'.
Proof.
  induction l as [|b l IH]; intros a d d'; [reflexivity|].
  change (last (b :: l) d = last (b :: l) d'). apply IH.
Qed.

Lemma nth_error_last {A : Type} (rest : list A) :
  forall s, nth_error (s :: rest) (List.length rest) = Some (last rest s).
Proof.
  induction rest as [|a rest IH]; intros s; [reflexivity|].
  change (nth_error (s :: a :: rest) (List.length (a :: rest)))
    with (nth_error (a :: rest) (List.length rest)).
  rewrite IH. f_equal.
  destruct rest as [|b rest]; [reflexivity|].
  change (last (a :: b :: rest) s) with (last (b :: rest) s).
  apply last_cons_default.
Qed.

Lemma chain_first_le_last (s0 : Segment) (rest : list Segment) :
  chain (seg_tmin s0) (s0 :: rest) -> seg_tmin s0 <= seg_tmax (last rest s0).
Proof.
  intros H.
  destruct (chain_sorted _ _ H) as [_ Hlow].
  destruct (chain_contiguous _ _ H) as [Hasc _].
  assert (Hl := nth_error_last rest s0).
  specialize (Hlow _ _ Hl).
  assert (Hin : In (last rest s0) (s0 :: rest)) by (eapply nth_error_In; eassumption).
  unfold ranges_ascending in Hasc. rewrite Forall_forall in Hasc.
  specialize (Hasc _ Hin). simpl in Hasc. lra.
Qed.

Lemma selector_spec (s0 : Segment) (rest : list Segment) (t : R) :
  let tbl := s0 :: rest in
  let sel := selector_of (seg_tmin s0) tbl t in
  chain (seg_tmin s0) tbl ->
  (sel = 0%nat <-> t < seg_tmin s0) /\
  (sel = S (List.length tbl) <-> seg_tmax (last rest s0) < t) /\
  (seg_tmin s0 <= t <= seg_tmax (last rest s0) ->
   (1 <= sel <= List.length tbl)%nat /\
   exists seg,
     nth_error tbl (sel - 1) = Some seg /\
     seg_tmin seg <= t <= seg_tmax seg /\
     (forall i s', (i < sel - 1)%nat -> nth_error tbl i = Some s' -> seg_tmax s' < t) /\
     (forall i s', (sel - 1 < i)%nat -> nth_error tbl i = Some s' -> t <= seg_tmin s')).
Proof.
  intros tbl sel H.
  assert (Hab := chain_first_le_last s0 rest H).
  assert (Hlast := nth_error_last rest s0).
  destruct (count_over_prefix tbl (seg_tmin s0) t H) as (Hlen & Hlow & Hhigh).
  destruct (chain_sorted _ _ H) as [Hsorted _].
  destruct (chain_contiguous _ _ H) as [_ Hcont].
  fold tbl in Hlast, Hsorted, Hcont.
  assert (HN : List.length tbl = S (List.length rest)) by reflexivity.
  destruct (Rlt_dec t (seg_tmin s0)) as [Hlt|Hge].
  - assert (Hsel : sel = 0%nat).
    { unfold sel, selector_of, Rgeb. rewrite Rleb_false by assumption.
      rewrite (count_over_zero tbl (seg_tmin s0)) by (assumption || lra).
      reflexivity. }
    rewrite Hsel. split; [tauto|]. split.
    + split; [discriminate | lra].
    + lra.
  - assert (Hsel : sel = S (count_over tbl t)).
    { unfold sel, selector_of, Rgeb. rewrite Rleb_true by lra. reflexivity. }
    rewrite Hsel. split; [split; [discriminate | lra]|]. split.
    + split.
      * intros Hc. apply Nat.succ_inj in Hc.
        apply (Hlow (List.length rest)); [lia | assumption].
      * intros Hb. f_equal.
        destruct (Nat.eq_dec (count_over tbl t) (List.length tbl)) as [|Hne];
          [assumption|].
        assert (t <= seg_tmax (last rest s0))
          by (apply (Hhigh (List.length rest)); [lia | assumption]).
        lra.
    + intros [Ha Hb].
      assert (Hc : (count_over tbl t < List.length tbl)%nat).
      { destruct (Nat.eq_dec (count_over tbl t) (List.length tbl)) as [He|Hne];
          [|lia].
        assert (seg_tmax (last rest s0) < t)
          by (apply (Hlow (List.length rest)); [lia | assumption]).
        lra. }
      split; [lia|].
      replace (S (count_over tbl t) - 1)%nat with (count_over tbl t) by lia.
      destruct (nth_error tbl (count_over tbl t)) as [seg|] eqn:Hseg;
        [|apply nth_error_None in Hseg; lia].
      exists seg. split; [reflexivity|]. split; [|split].
      * split; [|apply (Hhigh (count_over tbl t)); [lia | assumption]].
        destruct (count_over tbl t) as [|c] eqn:Hcount.
        -- simpl in Hseg. injection Hseg as <-. lra.
        -- destruct (nth_error tbl c) as [prev|] eqn:Hprev;
             [|apply nth_error_None in Hprev; lia].
           rewrite (Hcont c prev seg Hprev Hseg).
           left. apply (Hlow c); [lia | assumption].
      * intros i s' Hi Hs'. apply (Hlow i); assumption.
      * intros i s' Hi Hs'.
        assert (seg_tmax seg <= seg_tmin s')
          by (apply (Hsorted (count_over tbl t) i); assumption).
        assert (t <= seg_tmax seg)
          by (apply (Hhigh (count_over tbl t)); [lia | assumption]).
        lra.
Qed.

(* ------------------------------------------------------------------ *)
(** ** The choices of [np.choose] *)

Lemma py_setitem_last {A : Type} (l : list A) :
  forall a v, py_setitem (l ++ [a]) (List.length l) v = l ++ [v].
Proof.
  induction l as [|b l IH]; intros a v; simpl; [reflexivity | now rewrite IH].
Qed.

Lemma nth_length_last {A : Type} (mid : list A) :
  forall v x d, nth (List.length mid) ((v :: mid) ++ [x]) d = last mid v.
Proof.
  intros v x d.
  rewrite app_nth1 by (simpl; lia).
  apply nth_error_nth. apply nth_error_last.
Qed.

Lemma last_map {A B : Type} (h : A -> B) (l : list A) :
  forall a, last (map h l) (h a) = h (last l a).
Proof.
  induction l as [|b l IH]; intros a; [reflexivity|].
  destruct l as [|c l]; [reflexivity|].
  change (last (map h (c :: l)) (h a) = h (last (c :: l) a)). apply IH.
Qed.

Lemma choose_element (W : list R) (j : nat) (cs : list (R -> npfloat)) :
  forall s,
    match nth s (map (fun c => Some (map c W)) cs) None with
    | Some arr => nth j arr NaN
    | None => NaN
    end = nth s (map (fun c => nth j (map c W) NaN) cs) NaN.
Proof.
  induction cs as [|c cs IH]; intros [|s]; simpl; try reflexivity. apply IH.
Qed.

Lemma np_choose_offset (g : R -> nat) (cs : list (R -> npfloat)) (T : list R) :
  forall P : list R,
    map (fun js =>
           match nth (snd js) (map (fun c => Some (map c (P ++ T))) cs) None with
           | Some arr => nth (fst js) arr NaN
           | None => NaN
           end)
        (combine (seq (List.length P) (List.length T)) (map g T)) =
    map (fun t => nth (g t) (map (fun c => c t) cs) NaN) T.
Proof.
  induction T as [|t T IH]; intros P; [reflexivity|].
  simpl. f_equal.
  - rewrite choose_element. f_equal. apply map_ext. intros c.
    rewrite map_app. simpl. rewrite <- (length_map c P). apply nth_middle.
  - specialize (IH (P ++ [t])). rewrite <- app_assoc in IH. simpl in IH.
    rewrite length_app in IH. simpl in IH. rewrite Nat.add_1_r in IH. exact IH.
Qed.

Lemma np_choose_map (g : R -> nat) (cs : list (R -> npfloat)) (T : list R) :
  np_choose (map g T) (map (fun c => Some (map c T)) cs) =
  map (fun t => nth (g t) (map (fun c => c t) cs) NaN) T.
Proof.
  unfold np_choose. rewrite length_map. apply (np_choose_offset g cs T []).
Qed.

Lemma np_any_map (P : nat -> bool) (g : R -> nat) (T : list R) :
  np_any (map P (map g T)) = existsb (fun t => P (g t)) T.
Proof.
  unfold np_any. induction T as [|t T IH]; simpl; [reflexivity | now rewrite IH].
Qed.

Lemma np_extract_map (P : nat -> bool) (g : R -> nat) (T : list R) :
  np_extract (map P (map g T)) T = filter (fun t => P (g t)) T.
Proof.
  induction T as [|t T IH]; simpl; [reflexivity|].
  destruct (P (g t)); now rewrite IH.
Qed.

Lemma final_choices (out_of_range : string) (T : list R)
      (f0 : R -> R) (fs' : list (R -> R)) :
  let emf_choices := (None :: map (emf_array T) (f0 :: fs')) ++ [None] in
  let n := List.length emf_choices in
  (if String.eqb out_of_range "nan" then
     let c := py_setitem emf_choices 0 (Some (map (fun _ => NaN) T)) in
     py_setitem c (n - 1) (nth 0 c None)
   else
     let c := py_setitem emf_choices 0 (nth 1 emf_choices None) in
     py_setitem c (n - 1) (nth (n - 2) c None)) =
  map (fun c => Some (map c T)) (policy_choices out_of_range (f0 :: fs')).
Proof.
  intros emf_choices n.
  set (mid := map (emf_array T) (f0 :: fs')) in *.
  assert (Hn1 : forall v : option (list npfloat),
             (n - 1)%nat = List.length (v :: mid)).
  { intros v. unfold n, emf_choices. rewrite length_app. simpl. lia. }
  assert (Hn2 : (n - 2)%nat = List.length mid).
  { unfold n, emf_choices. rewrite length_app. simpl. lia. }
  assert (Hhead : forall v, py_setitem emf_choices 0 v = (v :: mid) ++ [None])
    by reflexivity.
  assert (Hnth0 : forall v : option (list npfloat),
             nth 0 ((v :: mid) ++ [None]) None = v) by reflexivity.
  assert (Hmid : map (fun c => Some (map c T)) (map fin_of (f0 :: fs')) = mid).
  { unfold mid. rewrite map_map. reflexivity. }
  unfold policy_choices. destruct (String.eqb out_of_range "nan"); cbv zeta.
  - rewrite Hhead, Hnth0, (Hn1 (Some (map (fun _ => NaN) T))), py_setitem_last.
    rewrite map_app. change (map ?F (?c :: ?l)) with (F c :: map F l) at 1.
    rewrite Hmid. reflexivity.
  - rewrite Hhead, Hn2, nth_length_last.
    change (nth 1 emf_choices None) with (emf_array T f0).
    rewrite (Hn1 (emf_array T f0)), py_setitem_last.
    rewrite map_app. change (map ?F (?c :: ?l)) with (F c :: map F l) at 1.
    rewrite Hmid. f_equal. simpl. f_equal.
    unfold mid. destruct fs' as [|f1 fs']; [reflexivity|].
    change (last (map (emf_array T) (f0 :: f1 :: fs')) (emf_array T f0))
      with (last (map (emf_array T) (f1 :: fs')) (emf_array T f0)).
    rewrite last_map. reflexivity.
Qed.

(* ------------------------------------------------------------------ *)
(** ** [__call__] in closed form *)

Lemma call_spec (self : Polynomial_Gaussian_Piecewise_Function)
      (s0 : Segment) (rest : list Segment) (T : list R) (derivative : Z)
      (out_of_range : string) (fs : list (R -> R)) :
  table self = s0 :: rest ->
  valid_policy out_of_range = true ->
  segment_emfs (table self) derivative = Ok fs ->
  let sel := selector_of (seg_tmin s0) (table self) in
  let N := List.length (table self) in
  call self T derivative out_of_range =
  if String.eqb out_of_range "raise" &&
     (existsb (fun t => (sel t <=? 0)%nat) T || existsb (fun t => (N <? sel t)%nat) T)
  then Raise (err_range (Tunits self)
                (none_if_empty (filter (fun t => (sel t <=? 0)%nat) T))
                (none_if_empty (filter (fun t => (N <? sel t)%nat) T)))
  else Ok (map (fun t => nth (sel t)
                             (map (fun c => c t) (policy_choices out_of_range fs))
                             NaN) T).
Proof.
  intros Ht Hpol Hfs sel N.
  unfold call. rewrite Hpol. cbn [negb].
  rewrite (call_pieces_spec self T derivative s0 rest Ht), Hfs. cbn [bind].
  destruct fs as [|f0 fs'].
  { apply segment_emfs_length in Hfs. rewrite Ht in Hfs. discriminate. }
  pose proof (final_choices out_of_range T f0 fs') as Hfc.
  cbv zeta in Hfc. cbv zeta. rewrite Hfc. clear Hfc.
  fold sel. fold N.
  rewrite (np_any_map (fun s => (s <=? 0)%nat) sel T).
  rewrite (np_any_map (fun s => (N <? s)%nat) sel T).
  rewrite (np_extract_map (fun s => (s <=? 0)%nat) sel T).
  rewrite (np_extract_map (fun s => (N <? s)%nat) sel T).
  rewrite np_choose_map.
  destruct (String.eqb out_of_range "raise"); cbn [andb]; [|reflexivity].
  destruct (existsb (fun t => (sel t <=? 0)%nat) T
            || existsb (fun t => (N <? sel t)%nat) T); reflexivity.
Qed.

Lemma call_raises (self : Polynomial_Gaussian_Piecewise_Function)
      (s0 : Segment) (rest : list Segment) (T : list R) (derivative : Z)
      (out_of_range : string) (e : exn) :
  table self = s0 :: rest ->
  valid_policy out_of_range = true ->
  segment_emfs (table self) derivative = Raise e ->
  call self T derivative out_of_range = Raise e.
Proof.
  intros Ht Hpol Hfs. unfold call. rewrite Hpol. cbn [negb].
  rewrite (call_pieces_spec self T derivative s0 rest Ht), Hfs. reflexivity.
Qed.

(* ------------------------------------------------------------------ *)
(** ** Constructed functions and their range *)

Lemma constructed_inv (self : Polynomial_Gaussian_Piecewise_Function) :
  constructed self ->
  exists s0 rest,
    table self = s0 :: rest /\
    chain (seg_tmin s0) (s0 :: rest) /\
    minT self = Ok (seg_tmin s0) /\
    maxT self = Ok (seg_tmax (last rest s0)).
Proof.
  intros (tbl & Tu & Vu & src & cal & H).
  unfold PGPF_init in H. destruct tbl as [|s0 rest]; [discriminate|].
  cbn [bind] in H.
  destruct (check_table (seg_tmin s0) (s0 :: rest)) as [[]|e] eqn:Hc; [|discriminate].
  cbn [bind] in H. injection H as <-.
  exists s0, rest. unfold minT, maxT. simpl.
  apply check_table_chain in Hc. tauto.
Qed.

Lemma valid_policy_cases (p : string) :
  valid_policy p = true <-> p = "raise" \/ p = "nan" \/ p = "extrapolate".
Proof.
  unfold valid_policy. simpl. rewrite !orb_true_iff, !String.eqb_eq.
  intuition discriminate.
Qed.

Lemma gauss_increment_unsupported (ec : R * R * R) (derivative : Z) :
  (3 < derivative)%Z -> gauss_increment ec derivative = Raise err_derivative.
Proof.
  intros H. destruct ec as [[ec0 ec1] ec2]. unfold gauss_increment.
  destruct (Z.eqb_spec derivative 0); [lia|].
  destruct (Z.eqb_spec derivative 1); [lia|].
  destruct (Z.eqb_spec derivative 2); [lia|].
  destruct (Z.eqb_spec derivative 3); [lia|]. reflexivity.
Qed.

Lemma segment_emfs_unsupported (tbl : list Segment) (derivative : Z) :
  (3 < derivative)%Z ->
  (exists s ec, In s tbl /\ seg_ec s = Some ec) ->
  segment_emfs tbl derivative = Raise err_derivative.
Proof.
  intros Hd. induction tbl as [|s rest IH]; intros (s' & ec & Hin & Hec).
  - contradiction.
  - simpl. unfold segment_emf, polyder.
    destruct (Z.ltb_spec derivative 0); [lia|]. cbn [bind].
    destruct (seg_ec s) as [ec0|] eqn:Hs.
    + rewrite gauss_increment_unsupported by assumption. reflexivity.
    + cbn [bind]. destruct Hin as [->|Hin]; [congruence|].
      rewrite IH by (exists s', ec; tauto). reflexivity.
Qed.

Lemma segment_emfs_polynomial (tbl : list Segment) (derivative : Z) :
  (0 <= derivative)%Z ->
  Forall (fun s => seg_ec s = None) tbl ->
  segment_emfs tbl derivative =
  Ok (map (fun s => polyval (polyder_iter (seg_coefs s) (Z.to_nat derivative))) tbl).
Proof.
  intros Hd. induction 1 as [|s rest Hs Hrest IH]; [reflexivity|].
  simpl. unfold segment_emf, polyder.
  destruct (Z.ltb_spec derivative 0); [lia|]. cbn [bind].
  rewrite Hs. cbn [bind]. rewrite IH. reflexivity.
Qed.

(** Flags of the range test on the table of a constructed function. *)
Lemma range_flags (s0 : Segment) (rest : list Segment) (t : R) :
  chain (seg_tmin s0) (s0 :: rest) ->
  let sel := selector_of (seg_tmin s0) (s0 :: rest) t in
  ((sel <=? 0)%nat = true <-> t < seg_tmin s0) /\
  ((List.length (s0 :: rest) <? sel)%nat = true <-> seg_tmax (last rest s0) < t).
Proof.
  intros H sel.
  destruct (selector_spec s0 rest t H) as (H0 & HN & Hin). fold sel in H0, HN, Hin.
  assert (Hab := chain_first_le_last s0 rest H).
  rewrite Nat.leb_le, Nat.ltb_lt. split.
  - rewrite <- H0. lia.
  - rewrite <- HN. split; [|lia]. intros Hlt.
    destruct (Rlt_dec t (seg_tmin s0)) as [Hu|Hu].
    + apply H0 in Hu. lia.
    + destruct (Rlt_dec (seg_tmax (last rest s0)) t) as [Ho|Ho].
      * apply HN. assumption.
      * assert (Hr : seg_tmin s0 <= t <= seg_tmax (last rest s0)) by lra.
        apply Hin in Hr. lia.
Qed.

Lemma policy_choices_inside (p : string) (fs : list (R -> R)) (t : R) (s : nat) :
  (1 <= s <= List.length fs)%nat ->
  nth s (map (fun c => c t) (policy_choices p fs)) NaN =
  Fin (nth (s - 1) fs (fun _ => 0) t).
Proof.
  intros Hs. destruct fs as [|f0 fs']; [simpl in Hs; lia|].
  unfold policy_choices. cbv zeta.
  destruct s as [|k]; [lia|].
  replace (S k - 1)%nat with k by lia.
  rewrite map_app.
  change (map ?F (?c :: ?l)) with (F c :: map F l) at 1.
  change (nth (S k) ((?a :: ?l) ++ ?l') NaN) with (nth k (l ++ l') NaN).
  rewrite app_nth1 by (rewrite !length_map; lia).
  rewrite map_map. unfold fin_of.
  rewrite (nth_indep _ NaN (Fin 0)) by (rewrite length_map; lia).
  apply (map_nth (fun g : R -> R => Fin (g t)) (f0 :: fs') (fun _ => 0) k).
Qed.

Lemma policy_choices_nan_outside (fs : list (R -> R)) (t : R) (s : nat) :
  s = 0%nat \/ s = S (List.length fs) ->
  fs <> [] ->
  nth s (map (fun c => c t) (policy_choices "nan" fs)) NaN = NaN.
Proof.
  intros Hs Hne. destruct fs as [|f0 fs']; [contradiction|].
  unfold policy_choices. cbv zeta. simpl String.eqb. cbv iota.
  destruct Hs as [->| ->]; [reflexivity|].
  rewrite map_app.
  change (nth (S ?k) (map ?F (?a :: ?l) ++ ?l') NaN) with (nth k (map F l ++ l') NaN).
  rewrite app_nth2 by (rewrite !length_map; lia).
  rewrite !length_map, Nat.sub_diag. reflexivity.
Qed.

(** Inputs inside the range raise neither flag. *)
Lemma in_range_flags_off (self : Polynomial_Gaussian_Piecewise_Function)
      (s0 : Segment) (rest : list Segment) (T : list R) :
  table self = s0 :: rest ->
  chain (seg_tmin s0) (s0 :: rest) ->
  Forall (fun t => seg_tmin s0 <= t <= seg_tmax (last rest s0)) T ->
  existsb (fun t => (selector_of (seg_tmin s0) (table self) t <=? 0)%nat) T = false /\
  existsb (fun t => (List.length (table self) <?
                     selector_of (seg_tmin s0) (table self) t)%nat) T = false.
Proof.
  intros Ht Hc HT. rewrite Ht.
  induction HT as [|t T Hin HT IH]; [split; reflexivity|].
  destruct IH as [IH1 IH2]. cbn [existsb]. rewrite IH1, IH2.
  destruct (range_flags s0 rest t Hc) as [Hu Ho]. cbv zeta in Hu, Ho.
  split; apply orb_false_iff; (split; [|reflexivity]);
    apply not_true_is_false; intros Hf.
  - apply Hu in Hf. lra.
  - apply Ho in Hf. lra.
Qed.

Lemma in_range_bounds (self : Polynomial_Gaussian_Piecewise_Function)
      (a b t : R) :
  minT self = Ok a -> maxT self = Ok b ->
  in_range self t -> a <= t <= b.
Proof.
  intros Ha Hb (a' & b' & Ha' & Hb' & H). congruence.
Qed.

(** The evaluation of inputs that are all in range, under any policy. *)
Lemma call_in_range (self : Polynomial_Gaussian_Piecewise_Function)
      (s0 : Segment) (rest : list Segment) (T : list R) (derivative : Z)
      (out_of_range : string) (fs : list (R -> R)) :
  table self = s0 :: rest ->
  chain (seg_tmin s0) (s0 :: rest) ->
  valid_policy out_of_range = true ->
  segment_emfs (table self) derivative = Ok fs ->
  Forall (fun t => seg_tmin s0 <= t <= seg_tmax (last rest s0)) T ->
  call self T derivative out_of_range =
  Ok (map (fun t => Fin (nth (selector_of (seg_tmin s0) (table self) t - 1) fs
                             (fun _ => 0) t)) T).
Proof.
  intros Ht Hc Hpol Hfs HT.
  rewrite (call_spec self s0 rest T derivative out_of_range fs Ht Hpol Hfs).
  destruct (in_range_flags_off self s0 rest T Ht Hc HT) as [-> ->].
  rewrite andb_false_r. f_equal.
  apply map_ext_in. intros t Hin.
  rewrite Forall_forall in HT. specialize (HT t Hin).
  apply policy_choices_inside.
  rewrite (segment_emfs_length _ _ _ Hfs), Ht.
  destruct (selector_spec s0 rest t Hc) as (_ & _ & Hsel).
  apply Hsel in HT. tauto.
Qed.

(* ------------------------------------------------------------------ *)
(** ** Example functions *)

Lemma demo_constructed : constructed demo_func.
Proof. exists demo_table, unit_C, unit_mV, "demo", "ITS-90". apply demo_init. Qed.

Lemma narrow_constructed : constructed narrow_func.
Proof.
  exists narrow_table, unit_C, unit_mV, "example", "ITS-90".
  unfold PGPF_init, narrow_table; simpl. rcompare. reflexivity.
Qed.

Lemma bump_constructed : constructed bump_func.
Proof.
  exists bump_table, unit_C, unit_mV, "example", "ITS-90".
  unfold PGPF_init, bump_table; simpl. rcompare. reflexivity.
Qed.

(* ------------------------------------------------------------------ *)
(** ** Derivative orders and policies *)

(** C10.  With an [out_of_range] string other than ["raise"], ["nan"] and
    ["extrapolate"], [__call__] raises the [ValueError] that names the
    string, whatever the function, the inputs (in range or not) and the
    order of derivative: the table is not looked at and no value is
    produced. *)
Theorem invalid_policy_rejected :
  forall (self : Polynomial_Gaussian_Piecewise_Function) (T : list R)
         (derivative : Z) (out_of_range : string),
    out_of_range <> "raise" -> out_of_range <> "nan" ->
    out_of_range <> "extrapolate" ->
    call self T derivative out_of_range = Raise (err_policy out_of_range).
Proof.
  intros self T derivative p H1 H2 H3. unfold call.
  destruct (valid_policy p) eqn:Hp; [|reflexivity].
  apply valid_policy_cases in Hp. tauto.
Qed.

Lemma invalid_policy_rejected_witness :
  call bump_func [5; 50] 7 "clip" = Raise (err_policy "clip").
Proof.
  apply invalid_policy_rejected; discriminate.
Defined.

(** C3, as the code has it.  Orders above 3 are refused exactly by the
    functions that have a Gaussian term: for such a function every order
    above 3 raises the unsupported-derivative [ValueError], for every list
    of inputs and every valid policy; a function without Gaussian term
    returns a value for every order above 3 when the inputs are in
    range. *)
Theorem derivative_above_3 :
  forall (self : Polynomial_Gaussian_Piecewise_Function) (T : list R)
         (derivative : Z) (out_of_range : string),
    constructed self ->
    valid_policy out_of_range = true ->
    (3 < derivative)%Z ->
    (has_gaussian self ->
     call self T derivative out_of_range = Raise err_derivative) /\
    (~ has_gaussian self -> Forall (in_range self) T ->
     exists vs, call self T derivative out_of_range = Ok vs /\
                List.length vs = List.length T).
Proof.
  intros self T d p Hc Hp Hd.
  destruct (constructed_inv self Hc) as (s0 & rest & Ht & Hchain & Hmin & Hmax).
  split.
  - intros Hg.
    apply (call_raises self s0 rest T d p err_derivative Ht Hp).
    apply segment_emfs_unsupported; assumption.
  - intros Hng HT.
    assert (Hnone : Forall (fun s => seg_ec s = None) (table self)).
    { apply Forall_forall. intros s Hin.
      destruct (seg_ec s) as [ec|] eqn:Hec; [|reflexivity].
      exfalso. apply Hng. exists s, ec. tauto. }
    assert (Hfs := segment_emfs_polynomial (table self) d ltac:(lia) Hnone).
    eexists. split.
    + apply (call_in_range self s0 rest T d p _ Ht Hchain Hp Hfs).
      apply Forall_forall. intros t Hin. rewrite Forall_forall in HT.
      apply (in_range_bounds self _ _ t Hmin Hmax). apply HT. assumption.
    + apply length_map.
Qed.

Lemma derivative_above_3_witness :
  call bump_func [5] 4 "raise" = Raise err_derivative.
Proof.
  apply derivative_above_3.
  - apply bump_constructed.
  - reflexivity.
  - lia.
  - exists {| seg_tmin := 0; seg_tmax := 10; seg_coefs := [1; 0];
              seg_ec := Some (1, -1, 5) |}, (1, -1, 5).
    split; [left; reflexivity | reflexivity].
Defined.

(** C3 as stated fails: on a function without Gaussian term, order 4 at an
    in-range temperature returns a value (here 0, the fourth derivative of
    a polynomial of degree 2) and raises nothing. *)
Lemma derivative_4_polynomial_returns :
  in_range demo_func 15 /\
  call demo_func [15] 4 "raise" = Ok [Fin 0] /\
  call demo_func [15] 4 "raise" <> Raise err_derivative.
Proof.
  assert (H : call demo_func [15] 4 "raise" = Ok [Fin 0]).
  { unfold call, call_pieces, demo_func, demo_table; simpl. rcompare. simpl.
    unfold np_choose; simpl. unfold polyval; simpl. reflexivity. }
  split; [|split].
  - exists 0, 20. unfold minT, maxT, demo_func, demo_table; simpl.
    split; [reflexivity|]. split; [reflexivity | lra].
  - exact H.
  - rewrite H. discriminate.
Qed.

(* ------------------------------------------------------------------ *)
(** ** The range test of the ["raise"] policy *)

Lemma bool_eq_of_iff (b1 b2 : bool) : (b1 = true <-> b2 = true) -> b1 = b2.
Proof. destruct b1, b2; intros [H1 H2]; auto; symmetry; auto. Qed.

Lemma existsb_ext_fun {A : Type} (f g : A -> bool) (l : list A) :
  (forall a, f a = g a) -> existsb f l = existsb g l.
Proof.
  intros H. induction l as [|a l IH]; simpl; [reflexivity | now rewrite H, IH].
Qed.

Lemma gauss_increment_supported (ec : R * R * R) (derivative : Z) :
  (0 <= derivative <= 3)%Z -> exists g, gauss_increment ec derivative = Ok g.
Proof.
  intros H. destruct ec as [[ec0 ec1] ec2]. unfold gauss_increment.
  destruct (Z.eqb_spec derivative 0); [eexists; reflexivity|].
  destruct (Z.eqb_spec derivative 1); [eexists; reflexivity|].
  destruct (Z.eqb_spec derivative 2); [eexists; reflexivity|].
  destruct (Z.eqb_spec derivative 3); [eexists; reflexivity|]. lia.
Qed.

Lemma segment_emfs_supported (tbl : list Segment) (derivative : Z) :
  (0 <= derivative <= 3)%Z -> exists fs, segment_emfs tbl derivative = Ok fs.
Proof.
  intros Hd. induction tbl as [|s rest [gs IH]]; [eexists; reflexivity|].
  simpl. unfold segment_emf, polyder.
  destruct (Z.ltb_spec derivative 0); [lia|]. cbn [bind].
  destruct (seg_ec s) as [ec|].
  - destruct (gauss_increment_supported ec derivative Hd) as [g ->].
    cbn [bind]. rewrite IH. eexists; reflexivity.
  - cbn [bind]. rewrite IH. eexists; reflexivity.
Qed.

(** [__call__] under ["raise"], with the two flags written as comparisons
    with the ends of the range. *)
Lemma call_raise_policy (self : Polynomial_Gaussian_Piecewise_Function)
      (s0 : Segment) (rest : list Segment) (T : list R) (derivative : Z)
      (fs : list (R -> R)) :
  table self = s0 :: rest ->
  chain (seg_tmin s0) (s0 :: rest) ->
  segment_emfs (table self) derivative = Ok fs ->
  let a := seg_tmin s0 in
  let b := seg_tmax (last rest s0) in
  call self T derivative "raise" =
  if existsb (fun t => Rltb t a) T || existsb (fun t => Rltb b t) T
  then Raise (err_range (Tunits self)
                (none_if_empty (filter (fun t => Rltb t a) T))
                (none_if_empty (filter (fun t => Rltb b t) T)))
  else Ok (map (fun t => nth (selector_of a (table self) t)
                             (map (fun c => c t) (policy_choices "raise" fs))
                             NaN) T).
Proof.
  intros Ht Hc Hfs a b.
  rewrite (call_spec self s0 rest T derivative "raise" fs Ht eq_refl Hfs).
  simpl String.eqb. cbn [andb].
  assert (Hu : forall t, (selector_of (seg_tmin s0) (table self) t <=? 0)%nat
                         = Rltb t a).
  { intros t. apply bool_eq_of_iff. rewrite Ht, Rltb_spec.
    apply (range_flags s0 rest t Hc). }
  assert (Ho : forall t, (List.length (table self) <?
                          selector_of (seg_tmin s0) (table self) t)%nat
                         = Rltb b t).
  { intros t. apply bool_eq_of_iff. rewrite Ht, Rltb_spec.
    apply (range_flags s0 rest t Hc). }
  rewrite (existsb_ext_fun _ _ T Hu), (existsb_ext_fun _ _ T Ho).
  rewrite (filter_ext _ _ Hu), (filter_ext _ _ Ho). reflexivity.
Qed.

Lemma out_of_range_flags (a b : R) (T : list R) :
  existsb (fun t => Rltb t a) T || existsb (fun t => Rltb b t) T = true <->
  exists t, In t T /\ (t < a \/ b < t).
Proof.
  rewrite orb_true_iff, !existsb_exists. split.
  - intros [(t & Hin & H)|(t & Hin & H)]; apply Rltb_spec in H; exists t; tauto.
  - intros (t & Hin & [H|H]); [left | right]; exists t;
      (split; [assumption | apply Rltb_spec; assumption]).
Qed.

(** C5, as the code has it.  For an order of derivative from 0 to 3 (the
    orders every function supports), [__call__] under ["raise"] fails with
    the out-of-range [ValueError] exactly when some input is strictly below
    [minT] or strictly above [maxT]; the error then carries the inputs
    below [minT] and the inputs above [maxT] ([None] for an empty group);
    when every input lies in [minT..maxT], ends included, a value is
    returned. *)
Theorem raise_policy_out_of_range :
  forall (self : Polynomial_Gaussian_Piecewise_Function) (T : list R)
         (derivative : Z) (a b : R),
    constructed self ->
    minT self = Ok a -> maxT self = Ok b ->
    (0 <= derivative <= 3)%Z ->
    ((exists u o, call self T derivative "raise" = Raise (err_range (Tunits self) u o))
     <-> (exists t, In t T /\ (t < a \/ b < t))) /\
    ((exists t, In t T /\ (t < a \/ b < t)) ->
     call self T derivative "raise" =
     Raise (err_range (Tunits self)
              (none_if_empty (filter (fun t => Rltb t a) T))
              (none_if_empty (filter (fun t => Rltb b t) T)))) /\
    ((forall t, In t T -> a <= t <= b) ->
     exists vs, call self T derivative "raise" = Ok vs).
Proof.
  intros self T d a b Hc Ha Hb Hd.
  destruct (constructed_inv self Hc) as (s0 & rest & Ht & Hchain & Hmin & Hmax).
  assert (a = seg_tmin s0) by congruence.
  assert (b = seg_tmax (last rest s0)) by congruence. subst a b.
  destruct (segment_emfs_supported (table self) d Hd) as [fs Hfs].
  rewrite (call_raise_policy self s0 rest T d fs Ht Hchain Hfs). cbv zeta.
  pose proof (out_of_range_flags (seg_tmin s0) (seg_tmax (last rest s0)) T) as Hflags.
  destruct (existsb (fun t => Rltb t (seg_tmin s0)) T
            || existsb (fun t => Rltb (seg_tmax (last rest s0)) t) T).
  - assert (Hex : exists t, In t T /\
                            (t < seg_tmin s0 \/ seg_tmax (last rest s0) < t))
      by (apply Hflags; reflexivity).
    split; [|split].
    + split; [intros _; exact Hex | intros _; eexists; eexists; reflexivity].
    + intros _. reflexivity.
    + intros Hall. destruct Hex as (t & Hin & Hout).
      specialize (Hall t Hin). lra.
  - split; [|split].
    + split.
      * intros (u & o & H). discriminate H.
      * intros Hex. apply Hflags in Hex. discriminate Hex.
    + intros Hex. apply Hflags in Hex. discriminate Hex.
    + intros _. eexists; reflexivity.
Qed.

Lemma raise_policy_out_of_range_witness :
  call narrow_func [5; 15; 25] 0 "raise" =
  Raise (err_range unit_C
           (none_if_empty (filter (fun t => Rltb t 10) [5; 15; 25]))
           (none_if_empty (filter (fun t => Rltb 20 t) [5; 15; 25]))).
Proof.
  refine (proj1 (proj2 (raise_policy_out_of_range narrow_func [5; 15; 25] 0 10 20
                          narrow_constructed eq_refl eq_refl _)) _).
  - lia.
  - exists 5. split; [left; reflexivity | left; lra].
Defined.

(** C5 as stated fails for an order of derivative the function does not
    support: on a function with a Gaussian term, order 4 at an input above
    [maxT] raises the unsupported-derivative error, not the out-of-range
    one. *)
Lemma out_of_range_input_other_error :
  maxT bump_func = Ok 10 /\ 10 < 50 /\
  call bump_func [50] 4 "raise" = Raise err_derivative /\
  forall u o, call bump_func [50] 4 "raise" <> Raise (err_range unit_C u o).
Proof.
  assert (H : call bump_func [50] 4 "raise" = Raise err_derivative) by reflexivity.
  split; [reflexivity|]. split; [lra|]. split; [exact H|].
  intros u o. rewrite H. discriminate.
Qed.

(* ------------------------------------------------------------------ *)
(** ** The selected segment *)

Lemma segment_emfs_zero (tbl : list Segment) :
  segment_emfs tbl 0 = Ok (map poly_gauss_value tbl).
Proof.
  induction tbl as [|s rest IH]; [reflexivity|].
  simpl. rewrite IH. unfold segment_emf, poly_gauss_value. simpl.
  destruct (seg_ec s) as [[[a0 a1] a2]|]; reflexivity.
Qed.

(** The values returned for the inputs that are in range, whatever the
    other inputs are. *)
Lemma call_value_in_range (self : Polynomial_Gaussian_Piecewise_Function)
      (s0 : Segment) (rest : list Segment) (T : list R) (derivative : Z)
      (out_of_range : string) (fs : list (R -> R)) (vs : list npfloat) :
  table self = s0 :: rest ->
  chain (seg_tmin s0) (s0 :: rest) ->
  valid_policy out_of_range = true ->
  segment_emfs (table self) derivative = Ok fs ->
  call self T derivative out_of_range = Ok vs ->
  forall j t,
    nth_error T j = Some t ->
    seg_tmin s0 <= t <= seg_tmax (last rest s0) ->
    nth_error vs j =
    Some (Fin (nth (selector_of (seg_tmin s0) (table self) t - 1) fs (fun _ => 0) t)).
Proof.
  intros Ht Hc Hpol Hfs Hcall j t Hj Hin.
  rewrite (call_spec self s0 rest T derivative out_of_range fs Ht Hpol Hfs) in Hcall.
  match type of Hcall with
  | (if ?c then _ else _) = _ => destruct c; [discriminate|]
  end.
  injection Hcall as <-.
  rewrite nth_error_map, Hj. simpl. f_equal.
  apply policy_choices_inside.
  rewrite (segment_emfs_length _ _ _ Hfs), Ht.
  destruct (selector_spec s0 rest t Hc) as (_ & _ & Hsel).
  apply Hsel in Hin. tauto.
Qed.

(** C2.  On a constructed function with [N] segments, the selector that
    [__call__] computes for an input [t] is 0 exactly when [t < minT],
    [N+1] exactly when [t > maxT], and otherwise is the number [i] (from 1)
    of a segment with [tmin <= t <= tmax]: the first such segment, every
    earlier segment ending strictly below [t] and every later one starting
    at or above [t], so that an input on an interior boundary goes to the
    lower segment.  Whenever the call returns, the value at an in-range
    input is the polynomial-plus-Gaussian value of that segment; and the
    call does return when every input is in range. *)
Theorem selector_selects_segment :
  forall (self : Polynomial_Gaussian_Piecewise_Function) (T : list R) (a b : R),
    constructed self ->
    minT self = Ok a -> maxT self = Ok b ->
    let N := List.length (table self) in
    exists selector emf_choices,
      call_pieces self T 0 = Ok (selector, emf_choices) /\
      List.length selector = List.length T /\
      (forall j t, nth_error T j = Some t ->
         exists sel, nth_error selector j = Some sel /\
           (sel = 0%nat <-> t < a) /\
           (sel = S N <-> b < t) /\
           (a <= t <= b ->
            (1 <= sel <= N)%nat /\
            exists seg,
              nth_error (table self) (sel - 1) = Some seg /\
              seg_tmin seg <= t <= seg_tmax seg /\
              (forall i s', (i < sel - 1)%nat ->
                 nth_error (table self) i = Some s' -> seg_tmax s' < t) /\
              (forall i s', (sel - 1 < i)%nat ->
                 nth_error (table self) i = Some s' -> t <= seg_tmin s') /\
              (forall out_of_range vs,
                 call self T 0 out_of_range = Ok vs ->
                 nth_error vs j = Some (Fin (poly_gauss_value seg t))))) /\
      (forall out_of_range,
         valid_policy out_of_range = true ->
         (forall t, In t T -> a <= t <= b) ->
         exists vs, call self T 0 out_of_range = Ok vs).
Proof.
  intros self T a b Hc Ha Hb N.
  destruct (constructed_inv self Hc) as (s0 & rest & Ht & Hchain & Hmin & Hmax).
  assert (a = seg_tmin s0) by congruence.
  assert (b = seg_tmax (last rest s0)) by congruence. subst a b.
  pose proof (segment_emfs_zero (table self)) as Hfs.
  exists (map (selector_of (seg_tmin s0) (table self)) T).
  eexists. split; [|split; [|split]].
  - rewrite (call_pieces_spec self T 0 s0 rest Ht), Hfs. reflexivity.
  - apply length_map.
  - intros j t Hj.
    exists (selector_of (seg_tmin s0) (table self) t).
    split; [rewrite nth_error_map, Hj; reflexivity|].
    destruct (selector_spec s0 rest t Hchain) as (H0 & HN & Hin).
    unfold N. rewrite Ht.
    split; [exact H0|]. split; [exact HN|].
    intros Hr. destruct (Hin Hr) as (Hbounds & seg & Hseg & Hcontains & Hlow & Hhigh).
    split; [exact Hbounds|].
    exists seg. split; [exact Hseg|]. split; [exact Hcontains|].
    split; [exact Hlow|]. split; [exact Hhigh|].
    intros p vs Hcall.
    assert (Hpol : valid_policy p = true).
    { destruct (valid_policy p) eqn:Hp; [reflexivity|].
      unfold call in Hcall. rewrite Hp in Hcall. discriminate Hcall. }
    rewrite (call_value_in_range self s0 rest T 0 p _ vs Ht Hchain Hpol Hfs Hcall
               j t Hj Hr).
    f_equal. f_equal. rewrite Ht.
    rewrite (nth_indep _ (fun _ : R => 0) (poly_gauss_value s0))
      by (rewrite length_map; simpl List.length in Hbounds |- *; lia).
    rewrite (map_nth poly_gauss_value (s0 :: rest) s0).
    rewrite (nth_error_nth _ _ s0 Hseg). reflexivity.
  - intros p Hpol Hall. eexists.
    apply (call_in_range self s0 rest T 0 p _ Ht Hchain Hpol Hfs).
    apply Forall_forall. exact Hall.
Qed.

Lemma selector_selects_segment_witness :
  exists selector emf_choices,
    call_pieces demo_func [10] 0 = Ok (selector, emf_choices) /\
    List.length selector = 1%nat.
Proof.
  destruct (selector_selects_segment demo_func [10] 0 20
              demo_constructed eq_refl eq_refl)
    as (selector & emf_choices & Hpieces & Hlen & _).
  exists selector, emf_choices. split; [exact Hpieces | exact Hlen].
Defined.

(* ------------------------------------------------------------------ *)
(** ** Scalar evaluation *)

Lemma call_scalar_in_range (self : Polynomial_Gaussian_Piecewise_Function)
      (s0 : Segment) (rest : list Segment) (t : R) (derivative : Z)
      (out_of_range : string) (fs : list (R -> R)) :
  table self = s0 :: rest ->
  chain (seg_tmin s0) (s0 :: rest) ->
  valid_policy out_of_range = true ->
  segment_emfs (table self) derivative = Ok fs ->
  seg_tmin s0 <= t <= seg_tmax (last rest s0) ->
  call_scalar self t derivative out_of_range =
  Ok (Fin (nth (selector_of (seg_tmin s0) (table self) t - 1) fs (fun _ => 0) t)).
Proof.
  intros Ht Hc Hpol Hfs Hin. unfold call_scalar.
  rewrite (call_in_range self s0 rest [t] derivative out_of_range fs Ht Hc Hpol Hfs)
    by (constructor; [assumption | constructor]).
  reflexivity.
Qed.

Lemma call_scalar_raise_outside (self : Polynomial_Gaussian_Piecewise_Function)
      (s0 : Segment) (rest : list Segment) (t : R) (derivative : Z)
      (fs : list (R -> R)) :
  table self = s0 :: rest ->
  chain (seg_tmin s0) (s0 :: rest) ->
  segment_emfs (table self) derivative = Ok fs ->
  t < seg_tmin s0 \/ seg_tmax (last rest s0) < t ->
  exists e, call_scalar self t derivative "raise" = Raise e.
Proof.
  intros Ht Hc Hfs Hout. unfold call_scalar.
  rewrite (call_raise_policy self s0 rest [t] derivative fs Ht Hc Hfs). cbv zeta.
  assert (Hf : existsb (fun t0 => Rltb t0 (seg_tmin s0)) [t]
               || existsb (fun t0 => Rltb (seg_tmax (last rest s0)) t0) [t] = true).
  { apply out_of_range_flags. exists t. split; [left; reflexivity | assumption]. }
  rewrite Hf. eexists; reflexivity.
Qed.

Lemma call_scalar_nan_outside (self : Polynomial_Gaussian_Piecewise_Function)
      (s0 : Segment) (rest : list Segment) (t : R) (derivative : Z)
      (fs : list (R -> R)) :
  table self = s0 :: rest ->
  chain (seg_tmin s0) (s0 :: rest) ->
  segment_emfs (table self) derivative = Ok fs ->
  t < seg_tmin s0 \/ seg_tmax (last rest s0) < t ->
  call_scalar self t derivative "nan" = Ok NaN.
Proof.
  intros Ht Hc Hfs Hout. unfold call_scalar.
  rewrite (call_spec self s0 rest [t] derivative "nan" fs Ht eq_refl Hfs).
  simpl String.eqb. cbn [andb map bind hd]. f_equal.
  apply policy_choices_nan_outside.
  - rewrite (segment_emfs_length _ _ _ Hfs), Ht.
    destruct (selector_spec s0 rest t Hc) as (H0 & HN & _).
    destruct Hout as [Hu|Ho]; [left; apply H0 | right; apply HN]; assumption.
  - intros ->. apply segment_emfs_length in Hfs. rewrite Ht in Hfs. discriminate.
Qed.

(* ------------------------------------------------------------------ *)
(** ** Inverse lookup *)

Lemma scalar_cases (self : Polynomial_Gaussian_Piecewise_Function) (T : R) :
  constructed self ->
  (exists r, (forall p, valid_policy p = true ->
                        call_scalar self T 0 p = Ok (Fin r))) \/
  ((exists e, call_scalar self T 0 "raise" = Raise e) /\
   call_scalar self T 0 "nan" = Ok NaN).
Proof.
  intros Hc.
  destruct (constructed_inv self Hc) as (s0 & rest & Ht & Hchain & _ & _).
  pose proof (segment_emfs_zero (table self)) as Hfs.
  destruct (Rlt_dec T (seg_tmin s0)) as [Hu|Hu];
    [|destruct (Rlt_dec (seg_tmax (last rest s0)) T) as [Ho|Ho]].
  - right. split.
    + apply (call_scalar_raise_outside self s0 rest T 0 _ Ht Hchain Hfs). tauto.
    + apply (call_scalar_nan_outside self s0 rest T 0 _ Ht Hchain Hfs). tauto.
  - right. split.
    + apply (call_scalar_raise_outside self s0 rest T 0 _ Ht Hchain Hfs). tauto.
    + apply (call_scalar_nan_outside self s0 rest T 0 _ Ht Hchain Hfs). tauto.
  - left. eexists. intros p Hp.
    apply (call_scalar_in_range self s0 rest T 0 p _ Ht Hchain Hp Hfs). lra.
Qed.

Lemma fgt_false_le (x y : R) : fgt (Fin x) (Fin y) = false <-> x <= y.
Proof.
  unfold fgt, Rgtb, Rltb. destruct (Rlt_dec y x); split; intros; (discriminate || lra || reflexivity).
Qed.

Lemma fle_true_le (x y : R) : fle (Fin x) (Fin y) = true <-> x <= y.
Proof. apply Rleb_spec. Qed.

(** The check after Newton's method accepts exactly the results whose
    residual is within the tolerance. *)
Lemma newton_check (self : Polynomial_Gaussian_Piecewise_Function)
      (T V Vtol : R) :
  constructed self ->
  (residual_ok self T V Vtol ->
   (v <- call_scalar self T 0 "raise" ;;
    if fgt (fabs (fsub v (Fin V))) (Fin Vtol) then Raise (ValueError [])
    else Ok T) = Ok T) /\
  (~ residual_ok self T V Vtol ->
   exists e, (v <- call_scalar self T 0 "raise" ;;
              if fgt (fabs (fsub v (Fin V))) (Fin Vtol) then Raise (ValueError [])
              else Ok T) = Raise e).
Proof.
  intros Hc. split.
  - intros (r & Hr & Hres). rewrite Hr. cbn [bind fsub fabs].
    rewrite (proj2 (fgt_false_le _ _) Hres). reflexivity.
  - intros Hbad. destruct (scalar_cases self T Hc) as [(r & Hr)|[(e & He) _]].
    + rewrite (Hr "raise" eq_refl). cbn [bind fsub fabs].
      destruct (fgt (Fin (Rabs (r - V))) (Fin Vtol)) eqn:Hg;
        [eexists; reflexivity|].
      exfalso. apply Hbad. exists r. split; [apply Hr; reflexivity|].
      apply fgt_false_le. exact Hg.
    + rewrite He. eexists; reflexivity.
Qed.

(** The check after [brentq] does the same, through the ["nan"] policy. *)
Lemma brentq_check (self : Polynomial_Gaussian_Piecewise_Function)
      (T V Vtol : R) :
  constructed self ->
  (residual_ok self T V Vtol ->
   (v <- call_scalar self T 0 "nan" ;;
    if negb (fle (fabs (fsub v (Fin V))) (Fin Vtol)) then Raise err_not_converged
    else Ok T) = Ok T) /\
  (~ residual_ok self T V Vtol ->
   (v <- call_scalar self T 0 "nan" ;;
    if negb (fle (fabs (fsub v (Fin V))) (Fin Vtol)) then Raise err_not_converged
    else Ok T) = Raise err_not_converged).
Proof.
  intros Hc. destruct (scalar_cases self T Hc) as [(r & Hr)|[(e & He) Hnan]].
  - rewrite (Hr "nan" eq_refl). cbn [bind fsub fabs]. split.
    + intros (r' & Hr' & Hres). rewrite (Hr "raise" eq_refl) in Hr'.
      injection Hr' as <-.
      rewrite (proj2 (fle_true_le _ _) Hres). reflexivity.
    + intros Hbad.
      destruct (fle (Fin (Rabs (r - V))) (Fin Vtol)) eqn:Hl; [|reflexivity].
      exfalso. apply Hbad. exists r. split; [apply Hr; reflexivity|].
      apply fle_true_le. exact Hl.
  - rewrite Hnan. cbn [bind fsub fabs fle negb]. split; [|reflexivity].
    intros (r & Hr & _). rewrite He in Hr. discriminate Hr.
Qed.

Lemma residual_ok_dec (self : Polynomial_Gaussian_Piecewise_Function)
      (T V Vtol : R) :
  constructed self -> residual_ok self T V Vtol \/ ~ residual_ok self T V Vtol.
Proof.
  intros Hc. destruct (scalar_cases self T Hc) as [(r & Hr)|[(e & He) _]].
  - destruct (Rle_dec (Rabs (r - V)) Vtol) as [Hle|Hnle].
    + left. exists r. split; [apply Hr; reflexivity | assumption].
    + right. intros (r' & Hr' & Hres). rewrite (Hr "raise" eq_refl) in Hr'.
      injection Hr' as <-. contradiction.
  - right. intros (r & Hr & _). rewrite He in Hr. discriminate Hr.
Qed.

Lemma inverse_newton_outcome (optimize : scipy_optimize)
      (self : Polynomial_Gaussian_Piecewise_Function) (V Ts Vtol : R) :
  constructed self ->
  let stage1 := newton optimize (fun0 self (Fin V)) Ts
                       (fun T => call_scalar self T 1 "extrapolate")
                       (fun T => call_scalar self T 2 "extrapolate") Vtol in
  (forall T1, stage1 = Ok T1 -> residual_ok self T1 V Vtol ->
              inverse_newton optimize self (Fin V) Ts Vtol = Ok T1) /\
  (~ (exists T1, stage1 = Ok T1 /\ residual_ok self T1 V Vtol) ->
   exists e, inverse_newton optimize self (Fin V) Ts Vtol = Raise e).
Proof.
  intros Hc stage1. split.
  - intros T1 H1 Hres. unfold inverse_newton. fold (fun0 self (Fin V)).
    fold stage1. rewrite H1. cbn [bind].
    apply (newton_check self T1 V Vtol Hc). exact Hres.
  - intros Hno. unfold inverse_newton. fold (fun0 self (Fin V)). fold stage1.
    destruct stage1 as [T1|e] eqn:H1; [|eexists; reflexivity].
    cbn [bind]. apply (newton_check self T1 V Vtol Hc).
    intros Hres. apply Hno. exists T1. tauto.
Qed.

Lemma inverse_brentq_outcome (optimize : scipy_optimize)
      (self : Polynomial_Gaussian_Piecewise_Function) (V Vtol a b : R) :
  constructed self ->
  minT self = Ok a -> maxT self = Ok b ->
  match brentq optimize (fun0 self (Fin V)) a b with
  | Ok T2 =>
      (residual_ok self T2 V Vtol ->
       inverse_brentq optimize self (Fin V) Vtol = Ok T2) /\
      (~ residual_ok self T2 V Vtol ->
       inverse_brentq optimize self (Fin V) Vtol = Raise err_not_converged)
  | Raise e =>
      inverse_brentq optimize self (Fin V) Vtol = Raise (brentq_reraised e)
  end.
Proof.
  intros Hc Ha Hb. unfold inverse_brentq. fold (fun0 self (Fin V)).
  rewrite Ha, Hb. cbn [bind].
  destruct (brentq optimize (fun0 self (Fin V)) a b) as [T2|e].
  - cbn [bind]. apply (brentq_check self T2 V Vtol Hc).
  - destruct e as [args| | | |]; try reflexivity.
    simpl brentq_reraised. destruct (is_sign_error args); reflexivity.
Qed.

(** C1.  On a constructed function, a temperature that [inverse] returns
    has [|self(T) - V| <= Vtol].  With [stage1] the outcome of Newton's
    method and [stage2] that of [brentq]: a result of [stage1] within the
    tolerance is returned; otherwise a result of [stage2] within the
    tolerance is returned, a result of [stage2] outside the tolerance
    raises the did-not-converge error, the sign error of [brentq] raises
    the voltage-not-in-range error, and any other exception of [brentq]
    goes to the caller unchanged.  Without SciPy the import error is
    raised.  So every call returns a temperature within the tolerance or
    raises. *)
Theorem inverse_residual_checked :
  forall (scipy : option scipy_optimize)
         (self : Polynomial_Gaussian_Piecewise_Function)
         (V : R) (Tstart : option R) (Vtol a b : R),
    constructed self ->
    minT self = Ok a -> maxT self = Ok b ->
    let result := inverse scipy self (Fin V) Tstart Vtol in
    (forall T, result = Ok T -> residual_ok self T V Vtol) /\
    (scipy = None -> result = Raise err_import) /\
    (forall optimize, scipy = Some optimize ->
       let Ts := match Tstart with Some t => t | None => 0.5 * (a + b) end in
       let stage1 := newton optimize (fun0 self (Fin V)) Ts
                            (fun T => call_scalar self T 1 "extrapolate")
                            (fun T => call_scalar self T 2 "extrapolate") Vtol in
       let stage2 := brentq optimize (fun0 self (Fin V)) a b in
       (forall T1, stage1 = Ok T1 -> residual_ok self T1 V Vtol -> result = Ok T1) /\
       (~ (exists T1, stage1 = Ok T1 /\ residual_ok self T1 V Vtol) ->
        match stage2 with
        | Ok T2 =>
            (residual_ok self T2 V Vtol -> result = Ok T2) /\
            (~ residual_ok self T2 V Vtol -> result = Raise err_not_converged)
        | Raise e => result = Raise (brentq_reraised e)
        end)).
Proof.
  intros scipy self V Tstart Vtol a b Hc Ha Hb result.
  assert (Hstages : forall optimize, scipy = Some optimize ->
    let Ts := match Tstart with Some t => t | None => 0.5 * (a + b) end in
    result = match inverse_newton optimize self (Fin V) Ts Vtol with
             | Ok T => Ok T
             | Raise _ => inverse_brentq optimize self (Fin V) Vtol
             end).
  { intros optimize Hs Ts. unfold result, inverse, ensure_import_optimize.
    rewrite Hs. cbn [bind]. unfold Ts.
    destruct Tstart as [t|]; [reflexivity|].
    rewrite Ha, Hb. reflexivity. }
  split; [|split].
  - intros T HT. destruct scipy as [optimize|].
    + rewrite (Hstages optimize eq_refl) in HT. cbv zeta in HT.
      pose proof (inverse_newton_outcome optimize self V
                    (match Tstart with Some t => t | None => 0.5 * (a + b) end)
                    Vtol Hc) as [Hacc Hrej].
      pose proof (inverse_brentq_outcome optimize self V Vtol a b Hc Ha Hb) as Hb2.
      match type of HT with
      | match ?n with _ => _ end = _ => destruct n as [T1|e1] eqn:Hn
      end.
      * injection HT as <-.
        unfold inverse_newton in Hn. fold (fun0 self (Fin V)) in Hn.
        match type of Hn with
        | bind ?s _ = _ => destruct s as [T0|e0] eqn:Hs0; [|discriminate Hn]
        end.
        cbn [bind] in Hn.
        destruct (residual_ok_dec self T0 V Vtol Hc) as [Hok|Hbad].
        -- rewrite (proj1 (newton_check self T0 V Vtol Hc) Hok) in Hn.
           injection Hn as <-. exact Hok.
        -- destruct (proj2 (newton_check self T0 V Vtol Hc) Hbad) as [e He].
           rewrite He in Hn. discriminate Hn.
      * destruct (brentq optimize (fun0 self (Fin V)) a b) as [T2|e2].
        -- destruct Hb2 as [Hgood Hfail].
           destruct (residual_ok_dec self T2 V Vtol Hc) as [Hok|Hbad].
           ++ rewrite (Hgood Hok) in HT. injection HT as <-. exact Hok.
           ++ rewrite (Hfail Hbad) in HT. discriminate HT.
        -- rewrite Hb2 in HT. discriminate HT.
    + discriminate HT.
  - intros ->. reflexivity.
  - intros optimize Hs Ts stage1 stage2.
    pose proof (inverse_newton_outcome optimize self V Ts Vtol Hc) as [Hacc Hrej].
    fold stage1 in Hacc, Hrej.
    rewrite (Hstages optimize Hs). fold Ts. split.
    + intros T1 H1 Hres. rewrite (Hacc T1 H1 Hres). reflexivity.
    + intros Hno. destruct (Hrej Hno) as [e1 ->].
      apply (inverse_brentq_outcome optimize self V Vtol a b Hc Ha Hb).
Qed.

Lemma inverse_residual_checked_witness :
  residual_ok narrow_func 15 15 (1 / 1000).
Proof.
  refine (proj1 (inverse_residual_checked (Some fixed_solvers) narrow_func 15
                   (Some 15) (1 / 1000) 10 20 narrow_constructed eq_refl eq_refl)
                15 _).
  unfold inverse, inverse_newton, call_scalar, call, call_pieces,
    narrow_func, narrow_table; simpl. rcompare. simpl.
  unfold np_choose, polyval; simpl.
  replace ((0 * 15 + 1) * 15 + 0 - 15) with 0 by lra.
  rewrite Rabs_R0. rcompare. reflexivity.
Defined.

(* ------------------------------------------------------------------ *)
(** ** The thermocouple helper object *)

Lemma narrow_is_facade : is_facade narrow_facade.
Proof.
  exists narrow_func, "Type X", "A - B". split; [apply narrow_constructed | reflexivity].
Qed.

Lemma demo_is_facade : is_facade demo_facade.
Proof.
  exists demo_func, "Type Y", "A - B". split; [apply demo_constructed | reflexivity].
Qed.

Lemma facade_inv (tc : Thermocouple_Reference) :
  is_facade tc ->
  constructed (func tc) /\
  _mats_Tunits_to tc = to Tunits_mat_C /\
  _mats_Tunits_from tc = from Tunits_mat_C.
Proof.
  intros (f & ty & comp & Hc & H). unfold TR_init in H.
  destruct (negb (is_C (Tunits f)) || negb (is_mV (Vunits f))); [discriminate|].
  injection H as <-. simpl. tauto.
Qed.

Lemma map_celsius_C (T : list R) : map (celsius_of unit_C) T = T.
Proof.
  rewrite <- (map_id T) at 2. apply map_ext. intros t.
  unfold celsius_of, apply_affine, row0. simpl. lra.
Qed.

Lemma fmul_one (v : npfloat) : fmul v (Fin 1) = v.
Proof. destruct v; [simpl; f_equal; lra | reflexivity]. Qed.

Lemma emf_mV_unit_eq (u : Tunit) (tc : Thermocouple_Reference)
      (T : list R) (Tref : R) (derivative : Z) (out_of_range : string) :
  _mats_Tunits_from tc = from Tunits_mat_C ->
  emf_mV_unit u tc T Tref derivative out_of_range =
  (f_T <- call (func tc) (map (celsius_of u) T) derivative out_of_range ;;
   if negb (derivative =? 0)%Z
   then Ok (map (fun v => fmul v (Fin (powerRZ (from_multiplier u) derivative))) f_T)
   else
     f_ref <- call_scalar (func tc) (celsius_of u Tref) derivative out_of_range ;;
     Ok (map (fun v => fsub v f_ref) f_T)).
Proof.
  intros H. unfold emf_mV_unit, celsius_of, from_multiplier, apply_affine.
  rewrite H. destruct (row0 (from Tunits_mat_C u)) as [mul add]. reflexivity.
Qed.

(** [EmfForward] for a derivative: one closed form for the four units. *)
Lemma EmfForward_derivative (u : Tunit) (tc : Thermocouple_Reference)
      (T : list R) (Tref : R) (derivative : Z) (out_of_range : string) :
  is_facade tc ->
  derivative <> 0%Z ->
  EmfForward u tc T Tref derivative out_of_range =
  (f_T <- call (func tc) (map (celsius_of u) T) derivative out_of_range ;;
   Ok (map (fun v => fmul v (Fin (powerRZ (from_multiplier u) derivative))) f_T)).
Proof.
  intros Hf Hd. destruct (facade_inv tc Hf) as (_ & _ & Hfrom).
  assert (Hz : (derivative =? 0)%Z = false) by (apply Z.eqb_neq; exact Hd).
  destruct u; unfold EmfForward, emf_mVF, emf_mVK, emf_mVR;
    try (rewrite (emf_mV_unit_eq _ tc T Tref derivative out_of_range Hfrom), Hz;
         reflexivity).
  unfold emf_mVC. rewrite map_celsius_C.
  destruct (call (func tc) T derivative out_of_range) as [f_T|e];
    cbn [bind]; [|reflexivity].
  rewrite Hz. cbn [negb]. f_equal.
  unfold from_multiplier. simpl. rewrite powerRZ_R1.
  rewrite <- (map_id f_T) at 1. apply map_ext. intros v. symmetry. apply fmul_one.
Qed.

(** [EmfForward] for the value itself: one closed form for the four
    units. *)
Lemma EmfForward_value (u : Tunit) (tc : Thermocouple_Reference)
      (T : list R) (Tref : R) (out_of_range : string) :
  is_facade tc ->
  EmfForward u tc T Tref 0 out_of_range =
  (f_T <- call (func tc) (map (celsius_of u) T) 0 out_of_range ;;
   f_ref <- call_scalar (func tc) (celsius_of u Tref) 0 out_of_range ;;
   Ok (map (fun v => fsub v f_ref) f_T)).
Proof.
  intros Hf. destruct (facade_inv tc Hf) as (_ & _ & Hfrom).
  destruct u; unfold EmfForward, emf_mVF, emf_mVK, emf_mVR;
    try (rewrite (emf_mV_unit_eq _ tc T Tref 0 out_of_range Hfrom); reflexivity).
  unfold emf_mVC. rewrite map_celsius_C.
  replace (celsius_of unit_C Tref) with Tref
    by (unfold celsius_of, apply_affine, row0; simpl; lra).
  reflexivity.
Qed.

Lemma facade_call_in_range (tc : Thermocouple_Reference) (derivative : Z)
      (out_of_range : string) :
  is_facade tc ->
  valid_policy out_of_range = true ->
  (0 <= derivative <= 3)%Z ->
  exists E : R -> R,
    (forall T, Forall (in_range (func tc)) T ->
               call (func tc) T derivative out_of_range = Ok (map Fin (map E T))) /\
    (forall t, in_range (func tc) t ->
               call_scalar (func tc) t derivative out_of_range = Ok (Fin (E t))).
Proof.
  intros Hf Hp Hd. destruct (facade_inv tc Hf) as (Hc & _ & _).
  destruct (constructed_inv _ Hc) as (s0 & rest & Ht & Hchain & Hmin & Hmax).
  destruct (segment_emfs_supported (table (func tc)) derivative Hd) as [fs Hfs].
  exists (fun t => nth (selector_of (seg_tmin s0) (table (func tc)) t - 1) fs
                       (fun _ => 0) t).
  split.
  - intros T HT. rewrite map_map.
    apply (call_in_range (func tc) s0 rest T derivative out_of_range fs
             Ht Hchain Hp Hfs).
    apply Forall_forall. intros t Hin. rewrite Forall_forall in HT.
    apply (in_range_bounds _ _ _ t Hmin Hmax). apply HT. exact Hin.
  - intros t Hin.
    apply (call_scalar_in_range (func tc) s0 rest t derivative out_of_range fs
             Ht Hchain Hp Hfs).
    apply (in_range_bounds _ _ _ t Hmin Hmax). exact Hin.
Qed.

(** C7.  For each unit system and each order of derivative from 1 to 3,
    [EmfForward] is the derivative of the function at the converted
    temperatures multiplied by the ['from'] multiplier of the unit raised
    to the order; it does not depend on the reference temperature; and for
    in-range temperatures this is a list of finite values. *)
Theorem derivative_scaled_by_multiplier :
  forall (u : Tunit) (tc : Thermocouple_Reference) (T : list R)
         (Tref Tref' : R) (derivative : Z) (out_of_range : string),
    is_facade tc ->
    (1 <= derivative <= 3)%Z ->
    EmfForward u tc T Tref derivative out_of_range =
    (f_T <- call (func tc) (map (celsius_of u) T) derivative out_of_range ;;
     Ok (map (fun v => fmul v (Fin (powerRZ (from_multiplier u) derivative))) f_T)) /\
    EmfForward u tc T Tref derivative out_of_range =
    EmfForward u tc T Tref' derivative out_of_range /\
    (valid_policy out_of_range = true ->
     Forall (in_range (func tc)) (map (celsius_of u) T) ->
     exists ds : list R,
       call (func tc) (map (celsius_of u) T) derivative out_of_range =
       Ok (map Fin ds) /\
       EmfForward u tc T Tref derivative out_of_range =
       Ok (map (fun x => Fin (x * powerRZ (from_multiplier u) derivative)) ds)).
Proof.
  intros u tc T Tref Tref' d p Hf Hd.
  assert (Hnz : d <> 0%Z) by lia.
  split; [|split].
  - apply EmfForward_derivative; assumption.
  - rewrite !EmfForward_derivative by assumption. reflexivity.
  - intros Hp HT.
    destruct (facade_call_in_range tc d p Hf Hp ltac:(lia)) as (E & HE & _).
    exists (map E (map (celsius_of u) T)). split; [apply HE; exact HT|].
    rewrite EmfForward_derivative by assumption.
    rewrite (HE _ HT). cbn [bind]. rewrite map_map. reflexivity.
Qed.

Lemma derivative_scaled_by_multiplier_witness :
  EmfForward unit_F demo_facade [50] 32 1 "raise" =
  EmfForward unit_F demo_facade [50] 212 1 "raise".
Proof.
  refine (proj1 (proj2 (derivative_scaled_by_multiplier unit_F demo_facade [50]
                          32 212 1 "raise" demo_is_facade _))).
  lia.
Defined.

(** C6, as the code has it.  For each unit system and each valid policy,
    when the temperatures [T], the temperature [X] and the reference
    temperature [R0] (for instance the ice point, the default reference)
    are all in range, [EmfForward(T, Tref=X)] is
    [EmfForward(T, Tref=R0) - EmfForward(X, Tref=R0)], exactly in real
    arithmetic. *)
Theorem cold_junction_compensation :
  forall (u : Tunit) (tc : Thermocouple_Reference) (T : list R) (X R0 : R)
         (out_of_range : string),
    is_facade tc ->
    valid_policy out_of_range = true ->
    Forall (in_range (func tc)) (map (celsius_of u) T) ->
    in_range (func tc) (celsius_of u X) ->
    in_range (func tc) (celsius_of u R0) ->
    exists (lhs rhsT : list R) (rhsX : R),
      EmfForward u tc T X 0 out_of_range = Ok (map Fin lhs) /\
      EmfForward u tc T R0 0 out_of_range = Ok (map Fin rhsT) /\
      EmfForward u tc [X] R0 0 out_of_range = Ok [Fin rhsX] /\
      lhs = map (fun v => v - rhsX) rhsT.
Proof.
  intros u tc T X R0 p Hf Hp HT HX HR.
  destruct (facade_call_in_range tc 0 p Hf Hp ltac:(lia)) as (E & HE & HE1).
  exists (map (fun t => E (celsius_of u t) - E (celsius_of u X)) T),
         (map (fun t => E (celsius_of u t) - E (celsius_of u R0)) T),
         (E (celsius_of u X) - E (celsius_of u R0)).
  rewrite !EmfForward_value by assumption.
  change (map (celsius_of u) [X]) with [celsius_of u X].
  rewrite (HE _ HT), (HE1 _ HX), (HE1 _ HR). cbn [bind].
  rewrite (HE [celsius_of u X]) by (constructor; [exact HX | constructor]).
  cbn [bind map fsub].
  rewrite !map_map. cbn [fsub].
  split; [reflexivity|]. split; [reflexivity|]. split; [reflexivity|].
  apply map_ext. intros t. lra.
Qed.

Lemma cold_junction_compensation_witness :
  exists (lhs rhsT : list R) (rhsX : R),
    EmfForward unit_C demo_facade [15] 5 0 "raise" = Ok (map Fin lhs) /\
    EmfForward unit_C demo_facade [15] 0 0 "raise" = Ok (map Fin rhsT) /\
    EmfForward unit_C demo_facade [5] 0 0 "raise" = Ok [Fin rhsX] /\
    lhs = map (fun v => v - rhsX) rhsT.
Proof.
  assert (Hr : forall t, 0 <= t <= 20 -> in_range demo_func (celsius_of unit_C t)).
  { intros t Ht. exists 0, 20. split; [reflexivity|]. split; [reflexivity|].
    unfold celsius_of, apply_affine, row0; simpl. lra. }
  apply (cold_junction_compensation unit_C demo_facade [15] 5 0 "raise"
           demo_is_facade eq_refl).
  - constructor; [apply Hr; lra | constructor].
  - apply Hr; lra.
  - apply Hr; lra.
Defined.

(** C6 as stated fails when the zero reference itself is out of range: on
    a function defined on 10..20, [T = 15] and [X = 12] are in range and
    [EmfForward(15, Tref=12)] returns 3, while [EmfForward(15, Tref=0)]
    raises the out-of-range error for the reference temperature. *)
Lemma cold_junction_reference_out_of_range :
  in_range narrow_func 15 /\ in_range narrow_func 12 /\
  EmfForward unit_C narrow_facade [15] 12 0 "raise" = Ok [Fin 3] /\
  EmfForward unit_C narrow_facade [15] 0 0 "raise" =
  Raise (err_range unit_C (Some [0]) None).
Proof.
  split; [|split; [|split]].
  - exists 10, 20. split; [reflexivity|]. split; [reflexivity | lra].
  - exists 10, 20. split; [reflexivity|]. split; [reflexivity | lra].
  - unfold EmfForward, emf_mVC, call_scalar, call, call_pieces, narrow_facade,
      narrow_func, narrow_table; simpl. rcompare. simpl.
    unfold np_choose, polyval; simpl. repeat f_equal. lra.
  - unfold EmfForward, emf_mVC, call_scalar, call, call_pieces, narrow_facade,
      narrow_func, narrow_table; simpl. rcompare. simpl. reflexivity.
Qed.

(* ------------------------------------------------------------------ *)
(** ** Inverse lookup through the helper object *)

(** The three methods that bind [mul] and [add] convert the start guess
    and hand it to [inverse]. *)
Lemma inverse_mV_unit_forwards_guess (scipy : option scipy_optimize)
      (u : Tunit) (tc : Thermocouple_Reference) (emf Tref g Vtol : R) :
  is_facade tc ->
  inverse_mV_unit scipy u tc emf Tref (Some g) Vtol =
  (f_ref <- call_scalar (func tc) (celsius_of u Tref) 0 "raise" ;;
   T <- inverse scipy (func tc) (fadd_emf emf f_ref) (Some (celsius_of u g)) Vtol ;;
   Ok (apply_affine (to Tunits_mat_C u) T)).
Proof.
  intros Hf. destruct (facade_inv tc Hf) as (_ & Hto & Hfrom).
  unfold inverse_mV_unit, celsius_of, apply_affine. rewrite Hto, Hfrom.
  destruct (row0 (from Tunits_mat_C u)) as [mul add].
  destruct (row0 (to Tunits_mat_C u)) as [imul iadd]. reflexivity.
Qed.

(** C4 at the Celsius method.  [inverse_CmV] with a start guess never
    returns: with an in-range reference temperature it raises the
    [NameError] for [mul], before [inverse] is called. *)
Theorem inverse_CmV_start_guess_raises :
  forall (scipy : option scipy_optimize) (tc : Thermocouple_Reference)
         (emf Tref g Vtol : R),
    is_facade tc ->
    in_range (func tc) Tref ->
    EmfInverse scipy unit_C tc emf Tref (Some g) Vtol = Raise err_name_mul.
Proof.
  intros scipy tc emf Tref g Vtol Hf Hr.
  destruct (facade_call_in_range tc 0 "raise" Hf eq_refl ltac:(lia)) as (E & _ & HE).
  unfold EmfInverse, inverse_CmV. rewrite (HE Tref Hr). reflexivity.
Qed.

Lemma inverse_CmV_start_guess_raises_witness :
  EmfInverse (Some fixed_solvers) unit_C demo_facade 0 0 (Some 5) (1 / 1000) =
  Raise err_name_mul.
Proof.
  apply inverse_CmV_start_guess_raises.
  - apply demo_is_facade.
  - exists 0, 20. split; [reflexivity|]. split; [reflexivity | lra].
Defined.

(* ------------------------------------------------------------------ *)
(** ** Derivatives of the segment functions *)

Lemma fold_horner_acc (p : list R) (x : R) :
  forall acc,
    fold_left (fun y pv => y * x + pv) p acc =
    acc * x ^ List.length p + fold_left (fun y pv => y * x + pv) p 0.
Proof.
  induction p as [|c p IH]; intros acc; simpl.
  - lra.
  - rewrite (IH (acc * x + c)), (IH (0 * x + c)). ring.
Qed.

Lemma polyval_cons (c : R) (p : list R) (x : R) :
  polyval (c :: p) x = c * x ^ List.length p + polyval p x.
Proof.
  unfold polyval. simpl. rewrite fold_horner_acc.
  replace (0 * x + c) with c by lra. reflexivity.
Qed.

Lemma polyder_step_cons (c d : R) (p : list R) :
  polyder_step (c :: d :: p) =
  c * INR (S (List.length p)) :: polyder_step (d :: p).
Proof.
  unfold polyder_step.
  change (List.length (c :: d :: p) - 1)%nat with (S (List.length p)).
  change (List.length (d :: p) - 1)%nat with (List.length p - 0)%nat.
  rewrite Nat.sub_0_r.
  change (removelast (c :: d :: p)) with (c :: removelast (d :: p)).
  reflexivity.
Qed.

Lemma polyder_step_length (p : list R) :
  List.length (polyder_step p) = (List.length p - 1)%nat.
Proof.
  induction p as [|c [|d p] IH]; [reflexivity | reflexivity |].
  rewrite polyder_step_cons. simpl List.length in *. rewrite IH. lia.
Qed.

Lemma polyval_derivative (p : list R) :
  forall x, derivable_pt_lim (polyval p) x (polyval (polyder_step p) x).
Proof.
  induction p as [|c [|d p] IH]; intros x.
  - apply (derivable_pt_lim_ext (fct_cte 0)); [reflexivity|].
    apply derivable_pt_lim_const.
  - apply (derivable_pt_lim_ext (fct_cte c)).
    + intros z. unfold fct_cte, polyval. simpl. lra.
    + apply derivable_pt_lim_const.
  - set (q := d :: p) in *.
    apply (derivable_pt_lim_ext
             (mult_real_fct c (fun y => y ^ List.length q) + polyval q)%F).
    + intros z. unfold plus_fct, mult_real_fct. rewrite polyval_cons. reflexivity.
    + replace (polyval (polyder_step (c :: q)) x)
        with (c * (INR (List.length q) * x ^ pred (List.length q))
              + polyval (polyder_step q) x).
      * apply derivable_pt_lim_plus; [|apply IH].
        apply derivable_pt_lim_scal. apply derivable_pt_lim_pow.
      * unfold q at 4. rewrite polyder_step_cons. fold q.
        rewrite polyval_cons, polyder_step_length.
        unfold q. simpl List.length. simpl pred.
        replace (S (List.length p) - 1)%nat with (List.length p) by lia. ring.
Qed.

Lemma polyder_iter_succ (m : nat) :
  forall p, polyder_iter p (S m) = polyder_step (polyder_iter p m).
Proof.
  induction m as [|m IH]; intros p; [reflexivity|].
  change (polyder_iter p (S (S m))) with (polyder_iter (polyder_step p) (S m)).
  rewrite IH. reflexivity.
Qed.

Lemma dT_derivative (ec2 x : R) : derivable_pt_lim (gauss_dT ec2) x 1.
Proof.
  apply (derivable_pt_lim_ext (id - fct_cte ec2)%F); [reflexivity|].
  replace 1 with (1 - 0) by lra.
  apply derivable_pt_lim_minus;
    [apply derivable_pt_lim_id | apply derivable_pt_lim_const].
Qed.

Lemma gauss_derivative (ec0 ec1 ec2 x : R) :
  derivable_pt_lim (gauss_fn ec0 ec1 ec2) x
    (2 * ec1 * gauss_fn ec0 ec1 ec2 x * gauss_dT ec2 x).
Proof.
  apply (derivable_pt_lim_ext
           (mult_real_fct ec0
              (comp exp (mult_real_fct ec1 (comp (fun y => y ^ 2) (gauss_dT ec2)))))).
  - intros z. reflexivity.
  - replace (2 * ec1 * gauss_fn ec0 ec1 ec2 x * gauss_dT ec2 x)
      with (ec0 * (exp (ec1 * (gauss_dT ec2 x) ^ 2)
                   * (ec1 * (INR 2 * (gauss_dT ec2 x) ^ pred 2 * 1)))).
    + apply derivable_pt_lim_scal.
      apply (derivable_pt_lim_comp
               (mult_real_fct ec1 (comp (fun y => y ^ 2) (gauss_dT ec2))) exp).
      * apply derivable_pt_lim_scal.
        apply (derivable_pt_lim_comp (gauss_dT ec2) (fun y => y ^ 2));
          [apply dT_derivative | apply derivable_pt_lim_pow].
      * apply derivable_pt_lim_exp.
    + unfold gauss_fn. simpl. ring.
Qed.

Lemma gauss_derivative_2 (ec0 ec1 ec2 x : R) :
  derivable_pt_lim (fun T => 2 * ec1 * gauss_fn ec0 ec1 ec2 T * gauss_dT ec2 T) x
    (2 * ec1 * gauss_fn ec0 ec1 ec2 x * (2 * ec1 * (gauss_dT ec2 x) ^ 2 + 1)).
Proof.
  apply (derivable_pt_lim_ext
           (mult_real_fct (2 * ec1) (gauss_fn ec0 ec1 ec2 * gauss_dT ec2))%F).
  - intros z. unfold mult_real_fct, mult_fct. ring.
  - replace (2 * ec1 * gauss_fn ec0 ec1 ec2 x * (2 * ec1 * (gauss_dT ec2 x) ^ 2 + 1))
      with (2 * ec1 * (2 * ec1 * gauss_fn ec0 ec1 ec2 x * gauss_dT ec2 x
                         * gauss_dT ec2 x
                       + gauss_fn ec0 ec1 ec2 x * 1)) by ring.
    apply derivable_pt_lim_scal.
    apply derivable_pt_lim_mult; [apply gauss_derivative | apply dT_derivative].
Qed.

Lemma gauss_derivative_3 (ec0 ec1 ec2 x : R) :
  derivable_pt_lim
    (fun T => 2 * ec1 * gauss_fn ec0 ec1 ec2 T * (2 * ec1 * (gauss_dT ec2 T) ^ 2 + 1)) x
    (4 * ec1 * ec1 * gauss_fn ec0 ec1 ec2 x * gauss_dT ec2 x
     * (2 * ec1 * (gauss_dT ec2 x) ^ 2 + 3)).
Proof.
  set (g := gauss_fn ec0 ec1 ec2). set (dT := gauss_dT ec2).
  apply (derivable_pt_lim_ext
           (mult_real_fct (2 * ec1)
              (g * (mult_real_fct (2 * ec1) (dT * dT) + fct_cte 1)))%F).
  - intros z. unfold mult_real_fct, mult_fct, plus_fct, fct_cte. ring.
  - replace (4 * ec1 * ec1 * g x * dT x * (2 * ec1 * (dT x) ^ 2 + 3))
      with (2 * ec1 *
            (2 * ec1 * g x * dT x *
               (mult_real_fct (2 * ec1) (dT * dT) + fct_cte 1)%F x
             + g x * (2 * ec1 * (1 * dT x + dT x * 1) + 0)))
      by (unfold mult_real_fct, mult_fct, plus_fct, fct_cte; ring).
    apply derivable_pt_lim_scal.
    apply derivable_pt_lim_mult; [apply gauss_derivative|].
    apply derivable_pt_lim_plus; [|apply derivable_pt_lim_const].
    apply derivable_pt_lim_scal.
    apply derivable_pt_lim_mult; apply dT_derivative.
Qed.

Lemma gauss_increment_chain (ec : R * R * R) (d : Z) :
  (0 <= d <= 2)%Z ->
  exists g g',
    gauss_increment ec d = Ok g /\ gauss_increment ec (d + 1) = Ok g' /\
    forall x, derivable_pt_lim g x (g' x).
Proof.
  intros Hd. destruct ec as [[ec0 ec1] ec2].
  assert (Hc : d = 0%Z \/ d = 1%Z \/ d = 2%Z) by lia.
  destruct Hc as [->|[->| ->]]; eexists; eexists;
    (split; [reflexivity|]); (split; [reflexivity|]); intros x.
  - apply (gauss_derivative ec0 ec1 ec2 x).
  - apply (gauss_derivative_2 ec0 ec1 ec2 x).
  - apply (gauss_derivative_3 ec0 ec1 ec2 x).
Qed.

Lemma segment_emf_derivative :
  forall (s : Segment) (d : Z),
    (0 <= d)%Z ->
    seg_ec s = None \/ (d <= 2)%Z ->
    exists g g',
      segment_emf s d = Ok g /\ segment_emf s (d + 1) = Ok g' /\
      forall x, derivable_pt_lim g x (g' x).
Proof.
  intros s d Hd Hs. unfold segment_emf, polyder.
  destruct (Z.ltb_spec d 0); [lia|].
  destruct (Z.ltb_spec (d + 1) 0); [lia|]. cbn [bind].
  assert (Hnat : Z.to_nat (d + 1) = S (Z.to_nat d)) by lia.
  rewrite Hnat, polyder_iter_succ.
  set (pd := polyder_iter (seg_coefs s) (Z.to_nat d)).
  destruct (seg_ec s) as [ec|].
  - destruct Hs as [Hs|Hs]; [discriminate Hs|].
    destruct (gauss_increment_chain ec d ltac:(lia)) as (g & g' & -> & -> & Hg).
    cbn [bind]. eexists; eexists. split; [reflexivity|]. split; [reflexivity|].
    intros x.
    apply (derivable_pt_lim_plus (polyval pd) g x _ _
             (polyval_derivative pd x) (Hg x)).
  - eexists; eexists. split; [reflexivity|]. split; [reflexivity|].
    intros x. apply (polyval_derivative pd x).
Qed.

(** X1.  Each order of derivative that a segment supports is the
    derivative of the order before it: for a polynomial-only segment and
    any order [d >= 0], and for a segment with Gaussian term and [d] from 0
    to 2, the function that the loop evaluates for order [d + 1] is, at
    every temperature, the derivative of the one it evaluates for order
    [d]. *)
Theorem segment_derivative_chain :
  forall (s : Segment) (d : Z),
    (0 <= d)%Z ->
    seg_ec s = None \/ (d <= 2)%Z ->
    exists g g',
      segment_emf s d = Ok g /\ segment_emf s (d + 1) = Ok g' /\
      forall x, derivable_pt_lim g x (g' x).
Proof.
  exact segment_emf_derivative.
Qed.

Lemma segment_derivative_chain_witness :
  exists g g',
    segment_emf {| seg_tmin := 0; seg_tmax := 10; seg_coefs := [1; 0];
                   seg_ec := Some (1, -1, 5) |} 2 = Ok g /\
    segment_emf {| seg_tmin := 0; seg_tmax := 10; seg_coefs := [1; 0];
                   seg_ec := Some (1, -1, 5) |} (2 + 1) = Ok g' /\
    forall x, derivable_pt_lim g x (g' x).
Proof.
  apply segment_derivative_chain; [lia | right; lia].
Defined.

(* ------------------------------------------------------------------ *)
(** ** The derivative returned inside a segment *)

Lemma segment_emfs_derivative (tbl : list Segment) (d : Z) :
  (0 <= d)%Z ->
  (forall s, In s tbl -> seg_ec s = None \/ (d <= 2)%Z) ->
  exists fs fs',
    segment_emfs tbl d = Ok fs /\ segment_emfs tbl (d + 1) = Ok fs' /\
    forall k g g', nth_error fs k = Some g -> nth_error fs' k = Some g' ->
                   forall x, derivable_pt_lim g x (g' x).
Proof.
  intros Hd. induction tbl as [|s rest IH]; intros Hs.
  - exists [], []. split; [reflexivity|]. split; [reflexivity|].
    intros [|k] g g' Hg; discriminate Hg.
  - destruct (segment_emf_derivative s d Hd (Hs s (or_introl eq_refl)))
      as (g0 & g0' & Hg0 & Hg0' & Hder).
    destruct (IH (fun s' Hin => Hs s' (or_intror Hin)))
      as (fs & fs' & Hfs & Hfs' & Hrest).
    exists (g0 :: fs), (g0' :: fs'). simpl.
    rewrite Hg0, Hg0', Hfs, Hfs'. cbn [bind].
    split; [reflexivity|]. split; [reflexivity|].
    intros [|k] g g' Hg Hg'; simpl in Hg, Hg'.
    + injection Hg as <-. injection Hg' as <-. exact Hder.
    + apply (Hrest k); assumption.
Qed.

(** Strictly inside segment number [k] (from 0) the selector is [k + 1]
    and the input is in range. *)
Lemma selector_interior (s0 : Segment) (rest : list Segment) (k : nat)
      (seg : Segment) (t : R) :
  chain (seg_tmin s0) (s0 :: rest) ->
  nth_error (s0 :: rest) k = Some seg ->
  seg_tmin seg < t < seg_tmax seg ->
  selector_of (seg_tmin s0) (s0 :: rest) t = S k /\
  seg_tmin s0 <= t <= seg_tmax (last rest s0).
Proof.
  intros Hc Hk Ht.
  destruct (chain_sorted _ _ Hc) as [Hsorted Hlow].
  destruct (chain_contiguous _ _ Hc) as [Hasc _].
  assert (Hmin : seg_tmin s0 <= seg_tmin seg) by (apply (Hlow k); exact Hk).
  assert (Hmax : seg_tmax seg <= seg_tmax (last rest s0)).
  { assert (Hl := nth_error_last rest s0).
    assert (Hlen : (k < List.length (s0 :: rest))%nat)
      by (apply nth_error_Some; rewrite Hk; discriminate).
    destruct (Nat.eq_dec k (List.length rest)) as [->|Hne].
    - rewrite Hl in Hk. injection Hk as <-. lra.
    - assert (seg_tmax seg <= seg_tmin (last rest s0))
        by (apply (Hsorted k (List.length rest)); [simpl in Hlen; lia | exact Hk | exact Hl]).
      assert (Hin : In (last rest s0) (s0 :: rest)) by (eapply nth_error_In; exact Hl).
      unfold ranges_ascending in Hasc. rewrite Forall_forall in Hasc.
      specialize (Hasc _ Hin). simpl in Hasc. lra. }
  assert (Hr : seg_tmin s0 <= t <= seg_tmax (last rest s0)) by lra.
  split; [|exact Hr].
  destruct (selector_spec s0 rest t Hc) as (_ & _ & Hin).
  destruct (Hin Hr) as (Hb & seg' & Hseg' & _ & Hbelow & Habove).
  set (sel := selector_of (seg_tmin s0) (s0 :: rest) t) in *.
  destruct (Nat.lt_trichotomy k (sel - 1)) as [Hlt|[Heq|Hgt]].
  - specialize (Hbelow k seg Hlt Hk). lra.
  - lia.
  - specialize (Habove k seg Hgt Hk). lra.
Qed.

Lemma call_derivative_interior_aux
      (self : Polynomial_Gaussian_Piecewise_Function) (k : nat)
      (seg : Segment) (x : R) (d : Z) (out_of_range : string) :
  constructed self ->
  valid_policy out_of_range = true ->
  nth_error (table self) k = Some seg ->
  seg_tmin seg < x < seg_tmax seg ->
  (0 <= d)%Z ->
  (d <= 2)%Z \/ ~ has_gaussian self ->
  exists v v',
    call_scalar self x d out_of_range = Ok (Fin v) /\
    call_scalar self x (d + 1) out_of_range = Ok (Fin v') /\
    derivable_pt_lim (emf_function self d out_of_range) x v'.
Proof.
  intros Hc Hp Hk Hx Hd Hg.
  destruct (constructed_inv self Hc) as (s0 & rest & Ht & Hchain & _ & _).
  assert (Hs : forall s, In s (table self) -> seg_ec s = None \/ (d <= 2)%Z).
  { intros s Hin. destruct Hg as [Hg|Hg]; [right; exact Hg|].
    destruct (seg_ec s) as [ec|] eqn:Hec; [|left; reflexivity].
    exfalso. apply Hg. exists s, ec. tauto. }
  destruct (segment_emfs_derivative (table self) d Hd Hs)
    as (fs & fs' & Hfs & Hfs' & Hder).
  assert (Hscalar : forall t d' fs0,
             segment_emfs (table self) d' = Ok fs0 ->
             seg_tmin seg < t < seg_tmax seg ->
             call_scalar self t d' out_of_range =
             Ok (Fin (nth k fs0 (fun _ => 0) t))).
  { intros t d' fs0 Hfs0 Hin. rewrite Ht in Hk.
    destruct (selector_interior s0 rest k seg t Hchain Hk Hin) as [Hsel Hr].
    rewrite (call_scalar_in_range self s0 rest t d' out_of_range fs0
               Ht Hchain Hp Hfs0 Hr).
    rewrite Ht, Hsel. replace (S k - 1)%nat with k by lia. reflexivity. }
  assert (Hlen : (k < List.length (table self))%nat)
    by (apply nth_error_Some; rewrite Hk; discriminate).
  destruct (nth_error fs k) as [g|] eqn:Hgk;
    [|apply nth_error_None in Hgk;
      rewrite (segment_emfs_length _ _ _ Hfs) in Hgk; lia].
  destruct (nth_error fs' k) as [g'|] eqn:Hgk';
    [|apply nth_error_None in Hgk';
      rewrite (segment_emfs_length _ _ _ Hfs') in Hgk'; lia].
  exists (g x), (g' x).
  rewrite (Hscalar x d fs Hfs Hx), (Hscalar x (d + 1)%Z fs' Hfs' Hx).
  rewrite (nth_error_nth _ _ (fun _ : R => 0) Hgk).
  rewrite (nth_error_nth _ _ (fun _ : R => 0) Hgk').
  split; [reflexivity|]. split; [reflexivity|].
  apply (derivable_pt_lim_locally_ext g _ x (seg_tmin seg) (seg_tmax seg));
    [exact Hx | | apply (Hder k g g' Hgk Hgk')].
  intros z Hz. unfold emf_function.
  rewrite (Hscalar z d fs Hfs Hz). simpl.
  rewrite (nth_error_nth _ _ (fun _ : R => 0) Hgk). reflexivity.
Qed.

(** X2.  At a temperature strictly inside a segment, what [__call__]
    returns for order [d + 1] is the derivative, at that temperature, of
    the function it computes for order [d]: for [d] from 0 to 2 on every
    constructed function, and for every [d >= 0] on a function without
    Gaussian term; under each valid policy. *)
Theorem call_derivative_interior :
  forall (self : Polynomial_Gaussian_Piecewise_Function) (k : nat)
         (seg : Segment) (x : R) (d : Z) (out_of_range : string),
    constructed self ->
    valid_policy out_of_range = true ->
    nth_error (table self) k = Some seg ->
    seg_tmin seg < x < seg_tmax seg ->
    (0 <= d)%Z ->
    (d <= 2)%Z \/ ~ has_gaussian self ->
    exists v v',
      call_scalar self x d out_of_range = Ok (Fin v) /\
      call_scalar self x (d + 1) out_of_range = Ok (Fin v') /\
      derivable_pt_lim (emf_function self d out_of_range) x v'.
Proof.
  exact call_derivative_interior_aux.
Qed.

Lemma call_derivative_interior_witness :
  exists v v',
    call_scalar bump_func 3 0 "raise" = Ok (Fin v) /\
    call_scalar bump_func 3 (0 + 1) "raise" = Ok (Fin v') /\
    derivable_pt_lim (emf_function bump_func 0 "raise") 3 v'.
Proof.
  apply (call_derivative_interior bump_func 0
           {| seg_tmin := 0; seg_tmax := 10; seg_coefs := [1; 0];
              seg_ec := Some (1, -1, 5) |}).
  - apply bump_constructed.
  - reflexivity.
  - reflexivity.
  - simpl. lra.
  - lia.
  - left. lia.
Defined.

(* ------------------------------------------------------------------ *)
(** ** The three policies *)

Lemma policy_choices_under (p : string) (f0 : R -> R) (fs' : list (R -> R)) (t : R) :
  String.eqb p "nan" = false ->
  nth 0 (map (fun c => c t) (policy_choices p (f0 :: fs'))) NaN = Fin (f0 t).
Proof. intros Hp. unfold policy_choices. rewrite Hp. reflexivity. Qed.

Lemma policy_choices_over (p : string) (f0 : R -> R) (fs' : list (R -> R)) (t : R) :
  String.eqb p "nan" = false ->
  nth (S (List.length (f0 :: fs')))
      (map (fun c => c t) (policy_choices p (f0 :: fs'))) NaN =
  Fin (last fs' f0 t).
Proof.
  intros Hp. unfold policy_choices. rewrite Hp. cbv zeta.
  rewrite map_app.
  change (nth (S ?k) (map ?F (?a :: ?l) ++ ?l') NaN) with (nth k (map F l ++ l') NaN).
  rewrite app_nth2 by (rewrite !length_map; lia).
  rewrite !length_map, Nat.sub_diag. reflexivity.
Qed.

(** What a call that does not raise returns, element by element. *)
Lemma call_elements (self : Polynomial_Gaussian_Piecewise_Function)
      (s0 : Segment) (rest : list Segment) (T : list R) (d : Z)
      (p : string) (fs : list (R -> R)) (vs : list npfloat) :
  table self = s0 :: rest ->
  valid_policy p = true ->
  segment_emfs (table self) d = Ok fs ->
  call self T d p = Ok vs ->
  vs = map (fun t => nth (selector_of (seg_tmin s0) (table self) t)
                         (map (fun c => c t) (policy_choices p fs)) NaN) T /\
  String.eqb p "raise" &&
    (existsb (fun t => (selector_of (seg_tmin s0) (table self) t <=? 0)%nat) T
     || existsb (fun t => (List.length (table self) <?
                           selector_of (seg_tmin s0) (table self) t)%nat) T)
  = false.
Proof.
  intros Ht Hp Hfs Hcall.
  rewrite (call_spec self s0 rest T d p fs Ht Hp Hfs) in Hcall.
  match type of Hcall with
  | (if ?c then _ else _) = _ => destruct c; [discriminate|]
  end.
  injection Hcall as <-. split; reflexivity.
Qed.

(** A call that returns had a valid policy and a supported order. *)
Lemma call_ok_inv (self : Polynomial_Gaussian_Piecewise_Function)
      (T : list R) (d : Z) (p : string) (vs : list npfloat) :
  constructed self ->
  call self T d p = Ok vs ->
  valid_policy p = true /\ exists fs, segment_emfs (table self) d = Ok fs.
Proof.
  intros Hc Hcall.
  destruct (constructed_inv self Hc) as (s0 & rest & Ht & _ & _ & _).
  destruct (valid_policy p) eqn:Hp.
  - split; [reflexivity|].
    destruct (segment_emfs (table self) d) as [fs|e] eqn:Hfs;
      [exists fs; reflexivity|].
    rewrite (call_raises self s0 rest T d p e Ht Hp Hfs) in Hcall. discriminate.
  - unfold call in Hcall. rewrite Hp in Hcall. discriminate.
Qed.

Lemma existsb_false_in {A : Type} (f : A -> bool) (l : list A) (a : A) :
  existsb f l = false -> In a l -> f a = false.
Proof.
  intros H Hin. destruct (f a) eqn:Hf; [|reflexivity].
  assert (existsb f l = true) by (apply existsb_exists; exists a; tauto).
  congruence.
Qed.

(** X6.  The evaluation is elementwise: when the call on an array
    returns, the scalar call on each of its elements returns too, with the
    value found at that position of the array result. *)
Theorem call_is_elementwise :
  forall (self : Polynomial_Gaussian_Piecewise_Function) (T : list R)
         (d : Z) (p : string) (vs : list npfloat) (j : nat) (t : R),
    constructed self ->
    call self T d p = Ok vs ->
    nth_error T j = Some t ->
    exists v, call_scalar self t d p = Ok v /\ nth_error vs j = Some v.
Proof.
  intros self T d p vs j t Hc Hcall Hj.
  destruct (call_ok_inv self T d p vs Hc Hcall) as [Hp [fs Hfs]].
  destruct (constructed_inv self Hc) as (s0 & rest & Ht & _ & _ & _).
  destruct (call_elements self s0 rest T d p fs vs Ht Hp Hfs Hcall) as [-> Hflags].
  eexists. split; [|rewrite nth_error_map, Hj; reflexivity].
  unfold call_scalar.
  rewrite (call_spec self s0 rest [t] d p fs Ht Hp Hfs).
  assert (Hin : In t T) by (eapply nth_error_In; exact Hj).
  destruct (String.eqb p "raise"); [|reflexivity].
  cbn [andb] in Hflags |- *. apply orb_false_iff in Hflags.
  destruct Hflags as [Hu Ho].
  cbn [existsb].
  rewrite (existsb_false_in _ T t Hu Hin), (existsb_false_in _ T t Ho Hin).
  reflexivity.
Qed.

(** X5.  On inputs that are all in range the policy makes no difference:
    any two valid policies give the same result, value or exception,
    for every order of derivative. *)
Theorem in_range_policy_independent :
  forall (self : Polynomial_Gaussian_Piecewise_Function) (T : list R)
         (d : Z) (p p' : string),
    constructed self ->
    valid_policy p = true -> valid_policy p' = true ->
    Forall (in_range self) T ->
    call self T d p = call self T d p'.
Proof.
  intros self T d p p' Hc Hp Hp' HT.
  destruct (constructed_inv self Hc) as (s0 & rest & Ht & Hchain & Hmin & Hmax).
  assert (HT' : Forall (fun t => seg_tmin s0 <= t <= seg_tmax (last rest s0)) T).
  { apply Forall_forall. intros t Hin. rewrite Forall_forall in HT.
    apply (in_range_bounds self _ _ t Hmin Hmax). apply HT. exact Hin. }
  destruct (segment_emfs (table self) d) as [fs|e] eqn:Hfs.
  - rewrite (call_in_range self s0 rest T d p fs Ht Hchain Hp Hfs HT').
    rewrite (call_in_range self s0 rest T d p' fs Ht Hchain Hp' Hfs HT').
    reflexivity.
  - rewrite (call_raises self s0 rest T d p e Ht Hp Hfs).
    rewrite (call_raises self s0 rest T d p' e Ht Hp' Hfs). reflexivity.
Qed.

Lemma in_range_policy_independent_witness :
  call demo_func [5; 10] 1 "nan" = call demo_func [5; 10] 1 "raise".
Proof.
  apply in_range_policy_independent.
  - apply demo_constructed.
  - reflexivity.
  - reflexivity.
  - repeat constructor; exists 0, 20;
      (split; [reflexivity|]); (split; [reflexivity | lra]).
Defined.

(** X7.  A negative order of derivative is refused by [np.polyder] at the
    first segment: every valid policy and every list of inputs gives that
    [ValueError]. *)
Theorem negative_derivative_rejected :
  forall (self : Polynomial_Gaussian_Piecewise_Function) (T : list R)
         (d : Z) (p : string),
    constructed self ->
    valid_policy p = true ->
    (d < 0)%Z ->
    call self T d p = Raise err_polyder_order.
Proof.
  intros self T d p Hc Hp Hd.
  destruct (constructed_inv self Hc) as (s0 & rest & Ht & _ & _ & _).
  apply (call_raises self s0 rest T d p _ Ht Hp).
  rewrite Ht. simpl. unfold segment_emf, polyder.
  destruct (Z.ltb_spec d 0); [reflexivity | lia].
Qed.

Lemma negative_derivative_rejected_witness :
  call demo_func [5] (-1) "extrapolate" = Raise err_polyder_order.
Proof.
  apply negative_derivative_rejected;
    [apply demo_constructed | reflexivity | lia].
Defined.

Lemma call_is_elementwise_witness :
  exists v, call_scalar demo_func 10 0 "raise" = Ok v /\
            nth_error [Fin 11; Fin 21; Fin 225] 1 = Some v.
Proof.
  apply (call_is_elementwise demo_func [5; 10; 15] 0 "raise" _ 1 10
           demo_constructed demo_call eq_refl).
Defined.

(** Elements of a call under a policy that never raises for the range. *)
Lemma call_no_raise_policy (self : Polynomial_Gaussian_Piecewise_Function)
      (s0 : Segment) (rest : list Segment) (T : list R) (d : Z)
      (p : string) (fs : list (R -> R)) :
  table self = s0 :: rest ->
  valid_policy p = true ->
  String.eqb p "raise" = false ->
  segment_emfs (table self) d = Ok fs ->
  call self T d p =
  Ok (map (fun t => nth (selector_of (seg_tmin s0) (table self) t)
                        (map (fun c => c t) (policy_choices p fs)) NaN) T).
Proof.
  intros Ht Hp Hr Hfs.
  rewrite (call_spec self s0 rest T d p fs Ht Hp Hfs), Hr. reflexivity.
Qed.

(** X3.  Under ["nan"], for an order of derivative from 0 to 3, the call
    returns for every list of inputs, one value per input: NaN for an
    input below [minT] or above [maxT], and for an input in range the
    finite value that the default policy returns for it. *)
Theorem nan_policy_marks_out_of_range :
  forall (self : Polynomial_Gaussian_Piecewise_Function) (T : list R)
         (d : Z) (a b : R),
    constructed self ->
    minT self = Ok a -> maxT self = Ok b ->
    (0 <= d <= 3)%Z ->
    exists vs,
      call self T d "nan" = Ok vs /\
      List.length vs = List.length T /\
      forall j t, nth_error T j = Some t ->
        (t < a \/ b < t -> nth_error vs j = Some NaN) /\
        (a <= t <= b ->
         exists r, nth_error vs j = Some (Fin r) /\
                   call_scalar self t d "raise" = Ok (Fin r)).
Proof.
  intros self T d a b Hc Ha Hb Hd.
  destruct (constructed_inv self Hc) as (s0 & rest & Ht & Hchain & Hmin & Hmax).
  assert (a = seg_tmin s0) by congruence.
  assert (b = seg_tmax (last rest s0)) by congruence. subst a b.
  destruct (segment_emfs_supported (table self) d Hd) as [fs Hfs].
  assert (Hlen : List.length fs = List.length (s0 :: rest))
    by (rewrite <- Ht; apply (segment_emfs_length _ _ _ Hfs)).
  eexists. split; [|split].
  - apply (call_no_raise_policy self s0 rest T d "nan" fs Ht eq_refl eq_refl Hfs).
  - apply length_map.
  - intros j t Hj. rewrite nth_error_map, Hj. cbn [option_map].
    destruct (selector_spec s0 rest t Hchain) as (H0 & HN & Hin).
    split.
    + intros Hout. f_equal. apply policy_choices_nan_outside.
      * rewrite Hlen, Ht.
        destruct Hout as [Hu|Ho]; [left; apply H0 | right; apply HN]; assumption.
      * intros ->. discriminate Hlen.
    + intros Hr. eexists. split.
      * f_equal. apply policy_choices_inside. rewrite Hlen, Ht.
        apply (proj1 (Hin Hr)).
      * apply (call_scalar_in_range self s0 rest t d "raise" fs
                 Ht Hchain eq_refl Hfs Hr).
Qed.

Lemma nan_policy_marks_out_of_range_witness :
  exists vs,
    call demo_func [25; 5] 0 "nan" = Ok vs /\
    List.length vs = List.length [25; 5] /\
    forall j t, nth_error [25; 5] j = Some t ->
      (t < 0 \/ 20 < t -> nth_error vs j = Some NaN) /\
      (0 <= t <= 20 ->
       exists r, nth_error vs j = Some (Fin r) /\
                 call_scalar demo_func t 0 "raise" = Ok (Fin r)).
Proof.
  apply (nan_policy_marks_out_of_range demo_func [25; 5] 0 0 20
           demo_constructed eq_refl eq_refl).
  lia.
Defined.

(** X4.  Under ["extrapolate"], for an order of derivative from 0 to 3,
    the call returns a finite value for every input: for an input in range
    the value of the default policy, for an input below [minT] the
    function of the first segment evaluated there, for an input above
    [maxT] the function of the last segment evaluated there. *)
Theorem extrapolate_policy_uses_end_segments :
  forall (self : Polynomial_Gaussian_Piecewise_Function) (T : list R)
         (d : Z) (a b : R),
    constructed self ->
    minT self = Ok a -> maxT self = Ok b ->
    (0 <= d <= 3)%Z ->
    exists vs,
      call self T d "extrapolate" = Ok vs /\
      forall j t, nth_error T j = Some t ->
        exists r,
          nth_error vs j = Some (Fin r) /\
          (a <= t <= b -> call_scalar self t d "raise" = Ok (Fin r)) /\
          (t < a ->
           exists first g, nth_error (table self) 0 = Some first /\
                           segment_emf first d = Ok g /\ r = g t) /\
          (b < t ->
           exists final g,
             nth_error (table self) (List.length (table self) - 1) = Some final /\
             segment_emf final d = Ok g /\ r = g t).
Proof.
  intros self T d a b Hc Ha Hb Hd.
  destruct (constructed_inv self Hc) as (s0 & rest & Ht & Hchain & Hmin & Hmax).
  assert (a = seg_tmin s0) by congruence.
  assert (b = seg_tmax (last rest s0)) by congruence. subst a b.
  destruct (segment_emfs_supported (table self) d Hd) as [fs Hfs].
  assert (Hlen : List.length fs = List.length (s0 :: rest))
    by (rewrite <- Ht; apply (segment_emfs_length _ _ _ Hfs)).
  destruct fs as [|f0 fs']; [discriminate Hlen|].
  assert (Hab := chain_first_le_last s0 rest Hchain).
  eexists. split.
  - apply (call_no_raise_policy self s0 rest T d "extrapolate" _
             Ht eq_refl eq_refl Hfs).
  - intros j t Hj. rewrite nth_error_map, Hj. cbn [option_map].
    destruct (selector_spec s0 rest t Hchain) as (H0 & HN & Hin).
    destruct (Rlt_dec t (seg_tmin s0)) as [Hu|Hu];
      [|destruct (Rlt_dec (seg_tmax (last rest s0)) t) as [Ho|Ho]].
    + exists (f0 t). rewrite Ht, (proj2 H0 Hu).
      split; [f_equal; apply policy_choices_under; reflexivity|].
      split; [intros; lra|]. split; [|intros; lra].
      intros _. exists s0, f0. split; [reflexivity|]. split; [|reflexivity].
      rewrite Ht in Hfs.
      destruct (segment_emfs_nth _ _ _ 0%nat s0 Hfs eq_refl) as (g & Hg & Hs).
      injection Hg as <-. exact Hs.
    + exists (last fs' f0 t). rewrite Ht, (proj2 HN Ho), <- Hlen.
      split; [f_equal; apply policy_choices_over; reflexivity|].
      split; [intros; lra|]. split; [intros; lra|].
      intros _. exists (last rest s0), (last fs' f0).
      replace (List.length (f0 :: fs') - 1)%nat with (List.length rest)
        by (simpl in Hlen |- *; lia).
      split; [apply nth_error_last|]. split; [|reflexivity].
      rewrite Ht in Hfs.
      destruct (segment_emfs_nth _ _ _ (List.length rest) _ Hfs
                  (nth_error_last rest s0)) as (g & Hg & Hs).
      assert (Hl : List.length fs' = List.length rest)
        by (simpl in Hlen; lia).
      rewrite <- Hl, nth_error_last in Hg. injection Hg as <-. exact Hs.
    + assert (Hr : seg_tmin s0 <= t <= seg_tmax (last rest s0)) by lra.
      eexists. split; [|split; [|split]].
      * f_equal. apply policy_choices_inside. rewrite Hlen, Ht.
        apply (proj1 (Hin Hr)).
      * intros _.
        apply (call_scalar_in_range self s0 rest t d "raise" _
                 Ht Hchain eq_refl Hfs Hr).
      * intros; lra.
      * intros; lra.
Qed.

Lemma extrapolate_policy_uses_end_segments_witness :
  exists vs,
    call demo_func [25] 0 "extrapolate" = Ok vs /\
    forall j t, nth_error [25] j = Some t ->
      exists r,
        nth_error vs j = Some (Fin r) /\
        (0 <= t <= 20 -> call_scalar demo_func t 0 "raise" = Ok (Fin r)) /\
        (t < 0 ->
         exists first g, nth_error (table demo_func) 0 = Some first /\
                         segment_emf first 0 = Ok g /\ r = g t) /\
        (20 < t ->
         exists final g,
           nth_error (table demo_func) (List.length (table demo_func) - 1)
           = Some final /\
           segment_emf final 0 = Ok g /\ r = g t).
Proof.
  apply (extrapolate_policy_uses_end_segments demo_func [25] 0 0 20
           demo_constructed eq_refl eq_refl).
  lia.
Defined.

(* ------------------------------------------------------------------ *)
(** ** Orders beyond the degree *)

Lemma polyder_iter_length (m : nat) :
  forall p, List.length (polyder_iter p m) = (List.length p - m)%nat.
Proof.
  induction m as [|m IH]; intros p; simpl.
  - lia.
  - rewrite IH, polyder_step_length. lia.
Qed.

Lemma nth_all_zero (fs : list (R -> R)) (t : R) :
  (forall g, In g fs -> g t = 0) ->
  forall k, nth k fs (fun _ => 0) t = 0.
Proof.
  intros H k. destruct (nth_in_or_default k fs (fun _ : R => 0)) as [Hin | ->].
  - apply H. exact Hin.
  - reflexivity.
Qed.

(** X8.  On a function without Gaussian term, an order of derivative that
    is at least the number of coefficients of every segment evaluates to 0
    at every in-range input, under each valid policy. *)
Theorem derivative_beyond_degree_is_zero :
  forall (self : Polynomial_Gaussian_Piecewise_Function) (T : list R)
         (d : Z) (p : string),
    constructed self ->
    ~ has_gaussian self ->
    valid_policy p = true ->
    (forall s, In s (table self) -> (Z.of_nat (List.length (seg_coefs s)) <= d)%Z) ->
    Forall (in_range self) T ->
    call self T d p = Ok (map (fun _ => Fin 0) T).
Proof.
  intros self T d p Hc Hng Hp Hdeg HT.
  destruct (constructed_inv self Hc) as (s0 & rest & Ht & Hchain & Hmin & Hmax).
  assert (Hd : (0 <= d)%Z).
  { specialize (Hdeg s0). rewrite Ht in Hdeg.
    specialize (Hdeg (or_introl eq_refl)). lia. }
  assert (Hnone : Forall (fun s => seg_ec s = None) (table self)).
  { apply Forall_forall. intros s Hin.
    destruct (seg_ec s) as [ec|] eqn:Hec; [|reflexivity].
    exfalso. apply Hng. exists s, ec. tauto. }
  pose proof (segment_emfs_polynomial (table self) d Hd Hnone) as Hfs.
  rewrite (call_in_range self s0 rest T d p _ Ht Hchain Hp Hfs).
  - f_equal. apply map_ext. intros t. f_equal.
    apply nth_all_zero. intros g Hin.
    apply in_map_iff in Hin. destruct Hin as (s & <- & Hs).
    assert (Hnil : polyder_iter (seg_coefs s) (Z.to_nat d) = []).
    { apply length_zero_iff_nil. rewrite polyder_iter_length.
      specialize (Hdeg s Hs). lia. }
    rewrite Hnil. reflexivity.
  - apply Forall_forall. intros t Hin. rewrite Forall_forall in HT.
    apply (in_range_bounds self _ _ t Hmin Hmax). apply HT. exact Hin.
Qed.

Lemma derivative_beyond_degree_is_zero_witness :
  call demo_func [5; 15] 3 "raise" = Ok (map (fun _ => Fin 0) [5; 15]).
Proof.
  apply derivative_beyond_degree_is_zero.
  - apply demo_constructed.
  - intros (s & ec & Hin & Hec).
    destruct Hin as [ <- | [ <- | [] ] ]; discriminate Hec.
  - reflexivity.
  - intros s [ <- | [ <- | [] ] ]; simpl; lia.
  - repeat constructor; exists 0, 20;
      (split; [reflexivity|]); (split; [reflexivity | lra]).
Defined.

(* ------------------------------------------------------------------ *)
(** ** More of the helper object *)

(** X15.  For a helper object, [minT_C] and [maxT_C] return the ends of
    the range of its function, unchanged, and [minT_C <= maxT_C]. *)
Theorem range_in_celsius :
  forall tc : Thermocouple_Reference,
    is_facade tc ->
    exists a b,
      minT_C tc = Ok a /\ maxT_C tc = Ok b /\
      minT (func tc) = Ok a /\ maxT (func tc) = Ok b /\ a <= b.
Proof.
  intros tc Hf. destruct (facade_inv tc Hf) as (Hc & Hto & _).
  destruct (constructed_inv _ Hc) as (s0 & rest & Ht & Hchain & Hmin & Hmax).
  exists (seg_tmin s0), (seg_tmax (last rest s0)).
  unfold minT_C, maxT_C. rewrite Hto, Hmin, Hmax. simpl.
  repeat split; try (f_equal; lra).
  apply (chain_first_le_last s0 rest Hchain).
Qed.

Lemma range_in_celsius_witness :
  exists a b,
    minT_C demo_facade = Ok a /\ maxT_C demo_facade = Ok b /\
    minT (func demo_facade) = Ok a /\ maxT (func demo_facade) = Ok b /\ a <= b.
Proof. apply range_in_celsius. apply demo_is_facade. Defined.

Lemma celsius_round_trip (u : Tunit) (t : R) :
  celsius_of u (apply_affine (to Tunits_mat_C u) t) = t.
Proof. destruct u; unfold celsius_of, apply_affine, row0; simpl; lra. Qed.

Lemma celsius_of_C (t : R) : celsius_of unit_C t = t.
Proof. unfold celsius_of, apply_affine, row0; simpl; lra. Qed.

Lemma call_singleton (self : Polynomial_Gaussian_Piecewise_Function)
      (t : R) (d : Z) (p : string) (v : npfloat) :
  constructed self ->
  call_scalar self t d p = Ok v -> call self [t] d p = Ok [v].
Proof.
  intros Hc H. unfold call_scalar in H.
  destruct (call self [t] d p) as [vs|e] eqn:Hcall; [|discriminate H].
  cbn [bind] in H. injection H as <-.
  destruct (call_ok_inv self [t] d p vs Hc Hcall) as [Hp [fs Hfs]].
  destruct (constructed_inv self Hc) as (s0 & rest & Ht & _ & _ & _).
  destruct (call_elements self s0 rest [t] d p fs vs Ht Hp Hfs Hcall) as [-> _].
  reflexivity.
Qed.

Lemma call_scalar_raise_in_range (self : Polynomial_Gaussian_Piecewise_Function)
      (t a b : R) (v : npfloat) :
  constructed self ->
  minT self = Ok a -> maxT self = Ok b ->
  call_scalar self t 0 "raise" = Ok v ->
  a <= t <= b /\ exists r, v = Fin r.
Proof.
  intros Hc Ha Hb H.
  destruct (constructed_inv self Hc) as (s0 & rest & Ht & Hchain & Hmin & Hmax).
  assert (a = seg_tmin s0) by congruence.
  assert (b = seg_tmax (last rest s0)) by congruence. subst a b.
  pose proof (segment_emfs_zero (table self)) as Hfs.
  destruct (Rlt_dec t (seg_tmin s0)) as [Hu|Hu];
    [|destruct (Rlt_dec (seg_tmax (last rest s0)) t) as [Ho|Ho]].
  - destruct (call_scalar_raise_outside self s0 rest t 0 _ Ht Hchain Hfs
                (or_introl Hu)) as [e He].
    rewrite He in H. discriminate H.
  - destruct (call_scalar_raise_outside self s0 rest t 0 _ Ht Hchain Hfs
                (or_intror Ho)) as [e He].
    rewrite He in H. discriminate H.
  - assert (Hr : seg_tmin s0 <= t <= seg_tmax (last rest s0)) by lra.
    split; [exact Hr|].
    rewrite (call_scalar_in_range self s0 rest t 0 "raise" _
               Ht Hchain eq_refl Hfs Hr) in H.
    injection H as <-. eexists; reflexivity.
Qed.

(** A temperature that [inverse] returns passed one of the two checks. *)
Lemma inverse_sound (scipy : option scipy_optimize)
      (self : Polynomial_Gaussian_Piecewise_Function)
      (V : R) (Tstart : option R) (Vtol T : R) :
  constructed self ->
  inverse scipy self (Fin V) Tstart Vtol = Ok T ->
  residual_ok self T V Vtol.
Proof.
  intros Hc H.
  destruct (constructed_inv self Hc) as (s0 & rest & Ht & Hchain & Hmin & Hmax).
  unfold inverse, ensure_import_optimize in H.
  destruct scipy as [optimize|]; [|discriminate H]. cbn [bind] in H.
  assert (Hstart : exists Ts,
             match Tstart with
             | Some t => Ok t
             | None => a <- minT self ;; b <- maxT self ;; Ok (0.5 * (a + b))
             end = Ok Ts).
  { destruct Tstart as [t|]; [eexists; reflexivity|].
    rewrite Hmin, Hmax. eexists; reflexivity. }
  destruct Hstart as [Ts HTs]. rewrite HTs in H. cbn [bind] in H.
  destruct (inverse_newton optimize self (Fin V) Ts Vtol) as [T1|e1] eqn:Hn.
  - injection H as <-.
    unfold inverse_newton in Hn.
    match type of Hn with
    | bind ?s _ = _ => destruct s as [T0|e0]; [|discriminate Hn]
    end.
    cbn [bind] in Hn.
    destruct (residual_ok_dec self T0 V Vtol Hc) as [Hok|Hbad].
    + rewrite (proj1 (newton_check self T0 V Vtol Hc) Hok) in Hn.
      injection Hn as <-. exact Hok.
    + destruct (proj2 (newton_check self T0 V Vtol Hc) Hbad) as [e He].
      rewrite He in Hn. discriminate Hn.
  - pose proof (inverse_brentq_outcome optimize self V Vtol _ _ Hc Hmin Hmax) as Hb.
    destruct (brentq optimize (fun0 self (Fin V)) (seg_tmin s0)
                     (seg_tmax (last rest s0))) as [T2|e2].
    + destruct Hb as [Hgood Hfail].
      destruct (residual_ok_dec self T2 V Vtol Hc) as [Hok|Hbad].
      * rewrite (Hgood Hok) in H. injection H as <-. exact Hok.
      * rewrite (Hfail Hbad) in H. discriminate H.
    + rewrite Hb in H. discriminate H.
Qed.

(** X10.  A temperature that [inverse] returns lies in [minT..maxT],
    although both solvers evaluate the function with ["extrapolate"]. *)
Theorem inverse_result_in_range :
  forall (scipy : option scipy_optimize)
         (self : Polynomial_Gaussian_Piecewise_Function)
         (V : R) (Tstart : option R) (Vtol T a b : R),
    constructed self ->
    minT self = Ok a -> maxT self = Ok b ->
    inverse scipy self (Fin V) Tstart Vtol = Ok T ->
    a <= T <= b.
Proof.
  intros scipy self V Tstart Vtol T a b Hc Ha Hb H.
  destruct (inverse_sound scipy self V Tstart Vtol T Hc H) as (r & Hr & _).
  apply (call_scalar_raise_in_range self T a b _ Hc Ha Hb Hr).
Qed.

Example narrow_inverse :
  inverse (Some fixed_solvers) narrow_func (Fin 15) (Some 15) (1 / 1000) = Ok 15.
Proof.
  unfold inverse, inverse_newton, call_scalar, call, call_pieces,
    narrow_func, narrow_table; simpl. rcompare. simpl.
  unfold np_choose, polyval; simpl.
  replace ((0 * 15 + 1) * 15 + 0 - 15) with 0 by lra.
  rewrite Rabs_R0. rcompare. reflexivity.
Qed.

Lemma inverse_result_in_range_witness : 10 <= 15 <= 20.
Proof.
  apply (inverse_result_in_range (Some fixed_solvers) narrow_func 15 (Some 15)
           (1 / 1000) 15 10 20 narrow_constructed eq_refl eq_refl narrow_inverse).
Defined.

(** The four inverse methods in one closed form. *)
Lemma EmfInverse_closed_form (scipy : option scipy_optimize) (u : Tunit)
      (tc : Thermocouple_Reference) (emf Tref : R) (Tstart : option R) (Vtol : R) :
  is_facade tc ->
  EmfInverse scipy u tc emf Tref Tstart Vtol =
  (f_ref <- call_scalar (func tc) (celsius_of u Tref) 0 "raise" ;;
   guess <- forwarded_guess u Tstart ;;
   T <- inverse scipy (func tc) (fadd_emf emf f_ref) guess Vtol ;;
   Ok (apply_affine (to Tunits_mat_C u) T)).
Proof.
  intros Hf. destruct (facade_inv tc Hf) as (_ & Hto & Hfrom).
  assert (Hother : forall u', u' <> unit_C ->
    inverse_mV_unit scipy u' tc emf Tref Tstart Vtol =
    (f_ref <- call_scalar (func tc) (celsius_of u' Tref) 0 "raise" ;;
     guess <- forwarded_guess u' Tstart ;;
     T <- inverse scipy (func tc) (fadd_emf emf f_ref) guess Vtol ;;
     Ok (apply_affine (to Tunits_mat_C u') T))).
  { intros u' Hu. unfold inverse_mV_unit, celsius_of, apply_affine.
    rewrite Hto, Hfrom.
    assert (Hg : forwarded_guess u' Tstart =
                 Ok match Tstart with
                    | Some t => Some (celsius_of u' t)
                    | None => None
                    end)
      by (destruct u', Tstart; try reflexivity; contradiction).
    rewrite Hg. unfold celsius_of, apply_affine.
    destruct (row0 (from Tunits_mat_C u')) as [mul add].
    destruct (row0 (to Tunits_mat_C u')) as [imul iadd]. reflexivity. }
  destruct u; unfold EmfInverse, inverse_FmV, inverse_KmV, inverse_RmV;
    try (apply Hother; discriminate).
  unfold inverse_CmV. rewrite celsius_of_C.
  destruct (call_scalar (func tc) Tref 0 "raise") as [f_ref|e]; [|reflexivity].
  cbn [bind]. destruct Tstart as [t|]; [reflexivity|]. cbn [forwarded_guess bind].
  destruct (inverse scipy (func tc) (fadd_emf emf f_ref) None Vtol) as [T|e];
    [|reflexivity].
  cbn [bind]. f_equal. unfold apply_affine, row0. simpl. lra.
Qed.

Lemma bind_Ok {A B : Type} (a : A) (k : A -> result B) : bind (Ok a) k = k a.
Proof. reflexivity. Qed.

(** X9.  The promise of the inverse methods: in every unit system, a
    temperature [T] that the inverse method returns for a measured [emf]
    and a reference temperature [Tref] is one at which the forward method
    of the same unit, with the same [Tref], returns a voltage within
    [Vtol] of [emf]. *)
Theorem inverse_then_forward :
  forall (scipy : option scipy_optimize) (u : Tunit)
         (tc : Thermocouple_Reference) (emf Tref : R) (Tstart : option R)
         (Vtol T : R),
    is_facade tc ->
    EmfInverse scipy u tc emf Tref Tstart Vtol = Ok T ->
    exists e, EmfForward u tc [T] Tref 0 "raise" = Ok [Fin e] /\
              Rabs (e - emf) <= Vtol.
Proof.
  intros scipy u tc emf Tref Tstart Vtol T Hf H.
  destruct (facade_inv tc Hf) as (Hc & _ & _).
  destruct (constructed_inv _ Hc) as (s0 & rest & Ht & Hchain & Hmin & Hmax).
  rewrite (EmfInverse_closed_form scipy u tc emf Tref Tstart Vtol Hf) in H.
  destruct (call_scalar (func tc) (celsius_of u Tref) 0 "raise") as [f_ref|e0]
    eqn:Href; [|discriminate H].
  rewrite bind_Ok in H.
  destruct (call_scalar_raise_in_range _ _ _ _ _ Hc Hmin Hmax Href)
    as [_ [fr ->]].
  destruct (forwarded_guess u Tstart) as [guess|e1]; [|discriminate H].
  rewrite bind_Ok in H.
  change (fadd_emf emf (Fin fr)) with (Fin (emf + fr)) in H.
  destruct (inverse scipy (func tc) (Fin (emf + fr)) guess Vtol) as [Tc|e2]
    eqn:Hinv; [|discriminate H].
  rewrite bind_Ok in H.
  assert (HT : T = apply_affine (to Tunits_mat_C u) Tc)
    by (injection H as H'; symmetry; exact H').
  rewrite HT. clear HT H.
  destruct (inverse_sound scipy (func tc) (emf + fr) guess Vtol Tc Hc Hinv)
    as (r & Hr & Hres).
  exists (r - fr).
  rewrite (EmfForward_value u tc _ Tref "raise" Hf).
  change (map (celsius_of u) [apply_affine (to Tunits_mat_C u) Tc])
    with [celsius_of u (apply_affine (to Tunits_mat_C u) Tc)].
  rewrite celsius_round_trip.
  rewrite (call_singleton (func tc) Tc 0 "raise" (Fin r) Hc Hr), Href.
  cbn [bind map fsub]. split; [reflexivity|].
  replace (r - fr - emf) with (r - (emf + fr)) by lra. exact Hres.
Qed.

Lemma inverse_then_forward_witness :
  exists e, EmfForward unit_C narrow_facade [15] 10 0 "raise" = Ok [Fin e] /\
            Rabs (e - 5) <= 1 / 1000.
Proof.
  apply (inverse_then_forward (Some fixed_solvers) unit_C narrow_facade
           5 10 None (1 / 1000) 15 narrow_is_facade).
  unfold EmfInverse, inverse_CmV, inverse, inverse_newton, call_scalar, call,
    call_pieces, narrow_facade, narrow_func, narrow_table; simpl.
  rcompare. simpl. unfold np_choose, polyval; simpl. rcompare. simpl.
  assert (E : (0 * (0.5 * (10 + 20)) + 1) * (0.5 * (10 + 20)) + 0
              - (5 + ((0 * 10 + 1) * 10 + 0)) = 0) by lra.
  rewrite E, Rabs_R0. rcompare. simpl. f_equal. lra.
Defined.

(** X11.  For in-range temperatures, exchanging the measurement and the
    reference junction negates the emf, and equal junction temperatures
    give exactly 0, in every unit system and under every valid policy. *)
Theorem emf_antisymmetric :
  forall (u : Tunit) (tc : Thermocouple_Reference) (T X : R) (p : string),
    is_facade tc ->
    valid_policy p = true ->
    in_range (func tc) (celsius_of u T) ->
    in_range (func tc) (celsius_of u X) ->
    exists e,
      EmfForward u tc [T] X 0 p = Ok [Fin e] /\
      EmfForward u tc [X] T 0 p = Ok [Fin (- e)] /\
      EmfForward u tc [T] T 0 p = Ok [Fin 0].
Proof.
  intros u tc T X p Hf Hp HT HX.
  destruct (facade_call_in_range tc 0 p Hf Hp ltac:(lia)) as (E & HE & HE1).
  exists (E (celsius_of u T) - E (celsius_of u X)).
  rewrite !EmfForward_value by assumption.
  change (map (celsius_of u) [T]) with [celsius_of u T].
  change (map (celsius_of u) [X]) with [celsius_of u X].
  rewrite (HE [celsius_of u T]) by (constructor; [exact HT | constructor]).
  rewrite (HE [celsius_of u X]) by (constructor; [exact HX | constructor]).
  rewrite (HE1 _ HT), (HE1 _ HX). cbn [bind map fsub].
  split; [reflexivity|]. split; repeat f_equal; lra.
Qed.

Lemma emf_antisymmetric_witness :
  exists e,
    EmfForward unit_C demo_facade [15] 5 0 "raise" = Ok [Fin e] /\
    EmfForward unit_C demo_facade [5] 15 0 "raise" = Ok [Fin (- e)] /\
    EmfForward unit_C demo_facade [15] 15 0 "raise" = Ok [Fin 0].
Proof.
  assert (Hr : forall t, 0 <= t <= 20 -> in_range demo_func (celsius_of unit_C t)).
  { intros t Ht. exists 0, 20. split; [reflexivity|]. split; [reflexivity|].
    rewrite celsius_of_C. exact Ht. }
  apply (emf_antisymmetric unit_C demo_facade 15 5 "raise"
           demo_is_facade eq_refl); apply Hr; lra.
Defined.

(** X12.  The four emf methods agree: the method of a unit is the Celsius
    method applied to the temperatures (and the reference temperature)
    converted to Celsius; for a derivative the result is, in addition,
    multiplied by the ['from'] multiplier of the unit to the power of the
    order. *)
Theorem emf_methods_agree :
  forall (u : Tunit) (tc : Thermocouple_Reference) (T : list R) (Tref : R)
         (d : Z) (p : string),
    is_facade tc ->
    EmfForward u tc T Tref d p =
    if (d =? 0)%Z
    then EmfForward unit_C tc (map (celsius_of u) T) (celsius_of u Tref) 0 p
    else scaled u d (EmfForward unit_C tc (map (celsius_of u) T) Tref d p).
Proof.
  intros u tc T Tref d p Hf.
  destruct (Z.eqb_spec d 0) as [->|Hd].
  - rewrite !EmfForward_value by assumption.
    rewrite map_celsius_C, celsius_of_C. reflexivity.
  - rewrite !EmfForward_derivative by assumption.
    rewrite map_celsius_C. unfold scaled.
    destruct (call (func tc) (map (celsius_of u) T) d p) as [f_T|e];
      [|reflexivity].
    cbn [bind]. f_equal. rewrite map_map. apply map_ext. intros v.
    replace (powerRZ (from_multiplier unit_C) d) with 1
      by (unfold from_multiplier; simpl fst; symmetry; apply powerRZ_R1).
    rewrite fmul_one. reflexivity.
Qed.

Lemma emf_methods_agree_witness :
  EmfForward unit_F demo_facade [50] 32 0 "raise" =
  EmfForward unit_C demo_facade (map (celsius_of unit_F) [50])
             (celsius_of unit_F 32) 0 "raise".
Proof.
  apply (emf_methods_agree unit_F demo_facade [50] 32 0 "raise" demo_is_facade).
Defined.



(** X14.  The four inverse methods agree when no start guess is given:
    the method of a unit is the Celsius method at the reference temperature
    converted to Celsius, followed by the conversion of the returned
    temperature to the unit. *)
Theorem inverse_methods_agree :
  forall (scipy : option scipy_optimize) (u : Tunit)
         (tc : Thermocouple_Reference) (emf Tref Vtol : R),
    is_facade tc ->
    EmfInverse scipy u tc emf Tref None Vtol =
    (T <- EmfInverse scipy unit_C tc emf (celsius_of u Tref) None Vtol ;;
     Ok (apply_affine (to Tunits_mat_C u) T)).
Proof.
  intros scipy u tc emf Tref Vtol Hf.
  rewrite !(EmfInverse_closed_form scipy) by assumption.
  rewrite celsius_of_C.
  replace (forwarded_guess u None) with (@Ok (option R) None)
    by (destruct u; reflexivity).
  cbn [forwarded_guess].
  destruct (call_scalar (func tc) (celsius_of u Tref) 0 "raise") as [f_ref|e];
    [|reflexivity].
  rewrite !bind_Ok.
  destruct (inverse scipy (func tc) (fadd_emf emf f_ref) None Vtol) as [T|e];
    [|reflexivity].
  rewrite !bind_Ok. f_equal. f_equal.
  unfold apply_affine, row0. simpl. lra.
Qed.

Lemma inverse_methods_agree_witness :
  EmfInverse (Some fixed_solvers) unit_K demo_facade 1 280 None (1 / 1000) =
  (T <- EmfInverse (Some fixed_solvers) unit_C demo_facade 1
          (celsius_of unit_K 280) None (1 / 1000) ;;
   Ok (apply_affine (to Tunits_mat_C unit_K) T)).
Proof.
  apply (inverse_methods_agree (Some fixed_solvers) unit_K demo_facade
           1 280 (1 / 1000) demo_is_facade).
Defined.

(** X17.  With a negative tolerance [inverse] never returns a
    temperature: no residual can pass either check. *)
Theorem negative_tolerance_never_returns :
  forall (scipy : option scipy_optimize)
         (self : Polynomial_Gaussian_Piecewise_Function)
         (V : R) (Tstart : option R) (Vtol : R),
    constructed self ->
    Vtol < 0 ->
    exists e, inverse scipy self (Fin V) Tstart Vtol = Raise e.
Proof.
  intros scipy self V Tstart Vtol Hc Hneg.
  destruct (inverse scipy self (Fin V) Tstart Vtol) as [T|e] eqn:H;
    [|exists e; reflexivity].
  destruct (inverse_sound scipy self V Tstart Vtol T Hc H) as (r & _ & Hres).
  pose proof (Rabs_pos (r - V)). lra.
Qed.

Lemma negative_tolerance_never_returns_witness :
  exists e, inverse (Some fixed_solvers) narrow_func (Fin 15) (Some 15) (-1)
            = Raise e.
Proof.
  apply negative_tolerance_never_returns; [apply narrow_constructed | lra].
Defined.

(** X18.  For every order of derivative, the value returned at an
    in-range input is computed by the first segment whose range contains
    the input, with the function the loop evaluates for that segment and
    that order; and the result has one value per input. *)
Theorem in_range_value_from_first_segment :
  forall (self : Polynomial_Gaussian_Piecewise_Function) (T : list R)
         (d : Z) (p : string) (vs : list npfloat) (a b : R),
    constructed self ->
    minT self = Ok a -> maxT self = Ok b ->
    call self T d p = Ok vs ->
    List.length vs = List.length T /\
    forall j t, nth_error T j = Some t -> a <= t <= b ->
      exists k seg g,
        nth_error (table self) k = Some seg /\
        seg_tmin seg <= t <= seg_tmax seg /\
        (forall i s', (i < k)%nat -> nth_error (table self) i = Some s' ->
                      seg_tmax s' < t) /\
        segment_emf seg d = Ok g /\
        nth_error vs j = Some (Fin (g t)).
Proof.
  intros self T d p vs a b Hc Ha Hb Hcall.
  destruct (call_ok_inv self T d p vs Hc Hcall) as [Hp [fs Hfs]].
  destruct (constructed_inv self Hc) as (s0 & rest & Ht & Hchain & Hmin & Hmax).
  assert (a = seg_tmin s0) by congruence.
  assert (b = seg_tmax (last rest s0)) by congruence. subst a b.
  split.
  - destruct (call_elements self s0 rest T d p fs vs Ht Hp Hfs Hcall) as [-> _].
    apply length_map.
  - intros j t Hj Hr.
    destruct (selector_spec s0 rest t Hchain) as (_ & _ & Hin).
    destruct (Hin Hr) as (Hbounds & seg & Hseg & Hcontains & Hlow & _).
    assert (Hfs' := Hfs). rewrite Ht in Hfs'.
    destruct (segment_emfs_nth _ _ _ _ _ Hfs' Hseg) as (g & Hg & Hsg).
    exists (selector_of (seg_tmin s0) (s0 :: rest) t - 1)%nat, seg, g.
    rewrite (call_value_in_range self s0 rest T d p fs vs Ht Hchain Hp Hfs Hcall
               j t Hj Hr).
    rewrite Ht.
    split; [exact Hseg|]. split; [exact Hcontains|]. split; [exact Hlow|].
    split; [exact Hsg|].
    rewrite (nth_error_nth _ _ (fun _ : R => 0) Hg). reflexivity.
Qed.

Lemma in_range_value_from_first_segment_witness :
  List.length [Fin 11; Fin 21; Fin 225] = List.length [5; 10; 15] /\
  forall j t, nth_error [5; 10; 15] j = Some t -> 0 <= t <= 20 ->
    exists k seg g,
      nth_error (table demo_func) k = Some seg /\
      seg_tmin seg <= t <= seg_tmax seg /\
      (forall i s', (i < k)%nat -> nth_error (table demo_func) i = Some s' ->
                    seg_tmax s' < t) /\
      segment_emf seg 0 = Ok g /\
      nth_error [Fin 11; Fin 21; Fin 225] j = Some (Fin (g t)).
Proof.
  apply (in_range_value_from_first_segment demo_func [5; 10; 15] 0 "raise" _ 0 20
           demo_constructed eq_refl eq_refl demo_call).
Defined.

(* ------------------------------------------------------------------ *)
(** ** __init__.py *)

Lemma dict_get_set {V : Type} (d : pydict V) (k : string) (v : V) (k' : string) :
  dict_get (dict_set d k v) k' =
  if String.eqb k' k then Some v else dict_get d k'.
Proof.
  induction d as [|[k0 v0] rest IH]; simpl.
  - reflexivity.
  - destruct (String.eqb_spec k k0) as [->|Hne]; simpl.
    + destruct (String.eqb_spec k' k0); reflexivity.
    + rewrite IH. destruct (String.eqb_spec k' k0) as [->|Hne'].
      * destruct (String.eqb_spec k0 k); [congruence | reflexivity].
      * reflexivity.
Qed.

Lemma dict_set_keys {V : Type} (d : pydict V) (k : string) (v : V) :
  distinct_keys d -> distinct_keys (dict_set d k v) /\
  forall k', In k' (map fst (dict_set d k v)) <-> k' = k \/ In k' (map fst d).
Proof.
  unfold distinct_keys. induction d as [|[k0 v0] rest IH]; intros Hd; simpl.
  - split; [constructor; [intros [] | constructor]|]. intros k'. intuition.
  - inversion Hd as [|? ? Hnin Hrest]; subst.
    destruct (IH Hrest) as [IH1 IH2].
    destruct (String.eqb_spec k k0) as [->|Hne]; simpl.
    + split; [exact Hd|]. intros k'. intuition.
    + split.
      * constructor; [|exact IH1]. intros Hin. apply IH2 in Hin.
        destruct Hin as [->|Hin]; [congruence | contradiction].
      * intros k'. rewrite IH2. intuition.
Qed.

Lemma dict_get_None {V : Type} (d : pydict V) (k : string) :
  dict_get d k = None <-> ~ In k (map fst d).
Proof.
  induction d as [|[k0 v0] rest IH]; simpl.
  - tauto.
  - destruct (String.eqb_spec k k0) as [->|Hne].
    + split; [discriminate | intros H; exfalso; apply H; now left].
    + rewrite IH. split.
      * intros H [He|Hin]; [congruence | contradiction].
      * intros H Hin. apply H. now right.
Qed.

Lemma dict_update_spec {V : Type} (other : pydict V) :
  forall d : pydict V,
    distinct_keys d -> distinct_keys other ->
    distinct_keys (dict_update d other) /\
    forall k, dict_get (dict_update d other) k =
              match dict_get other k with
              | Some v => Some v
              | None => dict_get d k
              end.
Proof.
  unfold dict_update.
  induction other as [|[k0 v0] rest IH]; intros d Hd Ho; simpl.
  - split; [exact Hd | reflexivity].
  - unfold distinct_keys in Ho. simpl in Ho.
    inversion Ho as [|? ? Hnin Hrest]; subst.
    destruct (dict_set_keys d k0 v0 Hd) as [Hset _].
    destruct (IH (dict_set d k0 v0) Hset Hrest) as [IH1 IH2].
    split; [exact IH1|]. intros k. rewrite IH2, dict_get_set.
    destruct (String.eqb_spec k k0) as [->|Hne].
    + assert (Hn : dict_get rest k0 = None) by (apply dict_get_None; exact Hnin).
      rewrite Hn. reflexivity.
    + reflexivity.
Qed.

(** X16.  The assembled dictionary gives, for each identifier, the object
    of the last source that defines it: that of [source_ASTM] if it has
    the identifier, else that of [source_NIST], else that of
    [source_OMEGA]; an identifier of none of the three is missing; and the
    keys of the result are distinct. *)
Theorem registry_precedence :
  forall (V : Type) (source_OMEGA source_NIST source_ASTM : pydict V) (k : string),
    distinct_keys source_OMEGA -> distinct_keys source_NIST ->
    distinct_keys source_ASTM ->
    distinct_keys (assemble_thermocouples source_OMEGA source_NIST source_ASTM) /\
    dict_get (assemble_thermocouples source_OMEGA source_NIST source_ASTM) k =
    match dict_get source_ASTM k with
    | Some v => Some v
    | None =>
        match dict_get source_NIST k with
        | Some v => Some v
        | None => dict_get source_OMEGA k
        end
    end.
Proof.
  intros V o n a k Ho Hn Ha. unfold assemble_thermocouples.
  assert (He : distinct_keys (@nil (string * V))) by constructor.
  destruct (dict_update_spec o [] He Ho) as [H1 G1].
  destruct (dict_update_spec n _ H1 Hn) as [H2 G2].
  destruct (dict_update_spec a _ H2 Ha) as [H3 G3].
  split; [exact H3|].
  rewrite G3, G2, G1. simpl.
  destruct (dict_get a k); [reflexivity|].
  destruct (dict_get n k); [reflexivity|].
  destruct (dict_get o k); reflexivity.
Qed.

Lemma registry_precedence_witness :
  dict_get (assemble_thermocouples [("G", 1%nat); ("C", 2%nat)] [("K", 3%nat)]
              [("G", 4%nat)]) "G" = Some 4%nat.
Proof.
  refine (proj2 (registry_precedence nat [("G", 1%nat); ("C", 2%nat)]
                   [("K", 3%nat)] [("G", 4%nat)] "G" _ _ _));
    unfold distinct_keys; simpl;
    repeat (constructor; [simpl; intuition discriminate|]); constructor.
Defined.

(* ------------------------------------------------------------------ *)
(** ** The tables of source_ASTM.py *)

Lemma astm_make_valid (s0 : Segment) (rest : list Segment) (src ty comp : string) :
  chain (seg_tmin s0) (s0 :: rest) ->
  seg_tmin s0 <= 0 <= seg_tmax (last rest s0) ->
  source_ASTM.make (s0 :: rest) src ty comp = Ok (astm_object (s0 :: rest) src ty comp) /\
  is_facade (astm_object (s0 :: rest) src ty comp) /\
  in_range (func (astm_object (s0 :: rest) src ty comp)) 0.
Proof.
  intros Hc H0.
  assert (Hinit : PGPF_init (s0 :: rest) unit_C unit_mV src source_ASTM._cal =
                  Ok (func (astm_object (s0 :: rest) src ty comp))).
  { unfold PGPF_init. cbn [bind].
    rewrite (proj2 (check_table_chain (s0 :: rest) (seg_tmin s0)) Hc).
    reflexivity. }
  split; [|split].
  - unfold source_ASTM.make. rewrite Hinit. reflexivity.
  - exists (func (astm_object (s0 :: rest) src ty comp)), ty, comp.
    split; [|reflexivity].
    exists (s0 :: rest), unit_C, unit_mV, src, source_ASTM._cal. exact Hinit.
  - exists (seg_tmin s0), (seg_tmax (last rest s0)).
    split; [reflexivity|]. split; [reflexivity | exact H0].
Qed.

Ltac astm_table :=
  apply astm_make_valid; simpl; repeat split; lra.

Lemma make_G_ok :
  let tc := astm_object source_ASTM.table_G
              (String.append source_ASTM._source ", Table 1") "Type G"
              "W - 74W,26Re" in
  source_ASTM.make_G = Ok tc /\ is_facade tc /\ in_range (func tc) 0.
Proof. unfold source_ASTM.make_G, source_ASTM.table_G. astm_table. Qed.

Lemma make_P_ok :
  let tc := astm_object source_ASTM.table_P
              (String.append source_ASTM._source ", Table 3") "Type P (II)"
              "55Pd,31Pt,14Au - 65Au,35Pd" in
  source_ASTM.make_P = Ok tc /\ is_facade tc /\ in_range (func tc) 0.
Proof. unfold source_ASTM.make_P, source_ASTM.table_P. astm_table. Qed.

Lemma make_AuFe_0_07_ok :
  let tc := astm_object source_ASTM.table_AuFe_0_07
              (String.append source_ASTM._source ", Table 5") "Chromel-AuFe0.07"
              "90Ni,10Cr - Au,0.07(atom%)Fe" in
  source_ASTM.make_AuFe_0_07 = Ok tc /\ is_facade tc /\ in_range (func tc) 0.
Proof. unfold source_ASTM.make_AuFe_0_07, source_ASTM.table_AuFe_0_07. astm_table. Qed.

Lemma make_PtMo_5_0_1_ok :
  let tc := astm_object source_ASTM.table_PtMo_5_0_1
              (String.append source_ASTM._source ", Table 7") "PtMo 5-0.1"
              "95Pt,5Mo - 99.9Pt,0.1Mo" in
  source_ASTM.make_PtMo_5_0_1 = Ok tc /\ is_facade tc /\ in_range (func tc) 0.
Proof. unfold source_ASTM.make_PtMo_5_0_1, source_ASTM.table_PtMo_5_0_1. astm_table. Qed.

Lemma make_PtRh_40_20_ok :
  let tc := astm_object source_ASTM.table_PtRh_40_20
              (String.append source_ASTM._source ", Table 9") "PtRh 40-20"
              "60Pt,40Rh - 80Pt,20Rh" in
  source_ASTM.make_PtRh_40_20 = Ok tc /\ is_facade tc /\ in_range (func tc) 0.
Proof. unfold source_ASTM.make_PtRh_40_20, source_ASTM.table_PtRh_40_20. astm_table. Qed.

Lemma make_M_ok :
  let tc := astm_object source_ASTM.table_M
              (String.append source_ASTM._source ", Table 11") "Type M"
              "82Ni,18Mo - 99.2Ni,0.8Co" in
  source_ASTM.make_M = Ok tc /\ is_facade tc /\ in_range (func tc) 0.
Proof. unfold source_ASTM.make_M, source_ASTM.table_M. astm_table. Qed.

Lemma make_IrRh_40_0_ok :
  let tc := astm_object source_ASTM.table_IrRh_40_0
              (String.append source_ASTM._source ", Table 13") "IrRh 40-0"
              "60Ir,40Rh - Ir" in
  source_ASTM.make_IrRh_40_0 = Ok tc /\ is_facade tc /\ in_range (func tc) 0.
Proof. unfold source_ASTM.make_IrRh_40_0, source_ASTM.table_IrRh_40_0. astm_table. Qed.

Lemma make_Au_Pt_ok :
  let tc := astm_object source_ASTM.table_Au_Pt
              (String.append source_ASTM._source ", Table 15") "Au-Pt"
              "Au - Pt" in
  source_ASTM.make_Au_Pt = Ok tc /\ is_facade tc /\ in_range (func tc) 0.
Proof. unfold source_ASTM.make_Au_Pt, source_ASTM.table_Au_Pt. astm_table. Qed.

Lemma make_Pt_Pd_ok :
  let tc := astm_object source_ASTM.table_Pt_Pd
              (String.append source_ASTM._source ", Table 17") "Pt-Pd"
              "Pt - Pd" in
  source_ASTM.make_Pt_Pd = Ok tc /\ is_facade tc /\ in_range (func tc) 0.
Proof. unfold source_ASTM.make_Pt_Pd, source_ASTM.table_Pt_Pd. astm_table. Qed.

(** X19.  Loading [source_ASTM] raises nothing: each of its nine tables
    passes the checks of the two constructors, so the dictionary is built
    with the nine identifiers in the order of the file; and the range of
    every entry contains 0 degrees Celsius, the default reference
    temperature. *)
Theorem source_ASTM_loads :
  exists d : pydict Thermocouple_Reference,
    source_ASTM.thermocouples = Ok d /\
    map fst d = ["G"; "P"; "AuFe 0.07"; "PtMo 5-0.1"; "PtRh 40-20"; "M";
                 "IrRh 40-0"; "Au-Pt"; "Pt-Pd"] /\
    distinct_keys d /\
    Forall (fun kv => is_facade (snd kv) /\ in_range (func (snd kv)) 0) d.
Proof.
  unfold source_ASTM.thermocouples.
  destruct make_G_ok as (E0 & F0 & R0). rewrite E0. cbn [bind]. clear E0.
  destruct make_P_ok as (E1 & F1 & R1). rewrite E1. cbn [bind]. clear E1.
  destruct make_AuFe_0_07_ok as (E2 & F2 & R2). rewrite E2. cbn [bind]. clear E2.
  destruct make_PtMo_5_0_1_ok as (E3 & F3 & R3). rewrite E3. cbn [bind]. clear E3.
  destruct make_PtRh_40_20_ok as (E4 & F4 & R4). rewrite E4. cbn [bind]. clear E4.
  destruct make_M_ok as (E5 & F5 & R5). rewrite E5. cbn [bind]. clear E5.
  destruct make_IrRh_40_0_ok as (E6 & F6 & R6). rewrite E6. cbn [bind]. clear E6.
  destruct make_Au_Pt_ok as (E7 & F7 & R7). rewrite E7. cbn [bind]. clear E7.
  destruct make_Pt_Pd_ok as (E8 & F8 & R8). rewrite E8. cbn [bind]. clear E8.
  eexists. split; [reflexivity|]. split; [reflexivity|]. split.
  - unfold distinct_keys. simpl.
    repeat (constructor; [simpl; intuition discriminate|]). constructor.
  - repeat (constructor; [split; assumption|]). constructor.
Qed.

(* ------------------------------------------------------------------ *)
(** ** When the emf methods return *)

Lemma call_raise_returns_iff (self : Polynomial_Gaussian_Piecewise_Function)
      (T : list R) (d : Z) :
  constructed self ->
  (0 <= d <= 3)%Z ->
  (exists vs, call self T d "raise" = Ok vs) <-> Forall (in_range self) T.
Proof.
  intros Hc Hd.
  destruct (constructed_inv self Hc) as (s0 & rest & Ht & Hchain & Hmin & Hmax).
  destruct (segment_emfs_supported (table self) d Hd) as [fs Hfs].
  rewrite (call_raise_policy self s0 rest T d fs Ht Hchain Hfs). cbv zeta.
  pose proof (out_of_range_flags (seg_tmin s0) (seg_tmax (last rest s0)) T) as Hflags.
  destruct (existsb (fun t => Rltb t (seg_tmin s0)) T
            || existsb (fun t => Rltb (seg_tmax (last rest s0)) t) T).
  - split; [intros [vs H]; discriminate H|].
    intros HT. exfalso.
    destruct (proj1 Hflags eq_refl) as (t & Hin & Hout).
    rewrite Forall_forall in HT.
    pose proof (in_range_bounds self _ _ t Hmin Hmax (HT t Hin)). lra.
  - split; [|intros _; eexists; reflexivity].
    intros _. apply Forall_forall. intros t Hin.
    exists (seg_tmin s0), (seg_tmax (last rest s0)).
    split; [exact Hmin|]. split; [exact Hmax|].
    destruct (Rlt_dec t (seg_tmin s0)) as [Hu|Hu];
      [|destruct (Rlt_dec (seg_tmax (last rest s0)) t) as [Ho|Ho]].
    + assert (Hf : false = true) by (apply Hflags; exists t; tauto).
      discriminate Hf.
    + assert (Hf : false = true) by (apply Hflags; exists t; tauto).
      discriminate Hf.
    + lra.
Qed.

(** X20.  Under the default policy, an emf method called for the value
    (order 0) returns exactly when every temperature and the reference
    temperature, converted to Celsius, are in range; an out-of-range
    reference temperature makes it raise even for in-range
    temperatures. *)
Theorem emf_returns_iff_all_in_range :
  forall (u : Tunit) (tc : Thermocouple_Reference) (T : list R) (Tref : R),
    is_facade tc ->
    (exists vs, EmfForward u tc T Tref 0 "raise" = Ok vs) <->
    Forall (in_range (func tc)) (map (celsius_of u) T) /\
    in_range (func tc) (celsius_of u Tref).
Proof.
  intros u tc T Tref Hf.
  destruct (facade_inv tc Hf) as (Hc & _ & _).
  rewrite (EmfForward_value u tc T Tref "raise" Hf).
  pose proof (call_raise_returns_iff (func tc) (map (celsius_of u) T) 0 Hc
                ltac:(lia)) as HT.
  pose proof (call_raise_returns_iff (func tc) [celsius_of u Tref] 0 Hc
                ltac:(lia)) as HR.
  split.
  - intros [vs H].
    destruct (call (func tc) (map (celsius_of u) T) 0 "raise") as [f_T|e] eqn:Hcall;
      [|discriminate H].
    cbn [bind] in H.
    destruct (call_scalar (func tc) (celsius_of u Tref) 0 "raise") as [f_ref|e]
      eqn:Href; [|discriminate H].
    split; [apply HT; eexists; reflexivity|].
    assert (HF : Forall (in_range (func tc)) [celsius_of u Tref]).
    { apply HR. unfold call_scalar in Href.
      destruct (call (func tc) [celsius_of u Tref] 0 "raise") as [v|e];
        [eexists; reflexivity | discriminate Href]. }
    inversion HF; assumption.
  - intros [HTin HRin].
    destruct (proj2 HT HTin) as [f_T ->].
    destruct (proj2 HR (Forall_cons _ HRin (Forall_nil _))) as [v Hv].
    unfold call_scalar. rewrite Hv. cbn [bind]. eexists; reflexivity.
Qed.

Lemma emf_returns_iff_all_in_range_witness :
  exists vs, EmfForward unit_C demo_facade [15] 5 0 "raise" = Ok vs.
Proof.
  assert (Hr : forall t, 0 <= t <= 20 -> in_range demo_func (celsius_of unit_C t)).
  { intros t Ht. exists 0, 20. split; [reflexivity|]. split; [reflexivity|].
    unfold celsius_of, apply_affine, row0; simpl. lra. }
  apply (proj2 (emf_returns_iff_all_in_range unit_C demo_facade [15] 5
                  demo_is_facade)).
  split; [constructor; [apply Hr; lra | constructor] | apply Hr; lra].
Defined.
